(** * Column lineage hook: [useColumnLineageDataForAssets.tsx]

    A shallow embedding of the decoder [getColumnLineage] and of the hook
    [useColumnLineageDataForAssets] (its [missing] memo, its [fetch] effect and
    the [setLoaded] updater), followed by the properties established on them.

    JavaScript objects used as dictionaries are finite maps ([gmap string _]);
    arrays are lists; [undefined] and [null] are [None]; a thrown exception is
    the [Throw] branch of [result]. *)

From stdpp Require Import gmap strings list fin_maps.

Set Warnings "-clear-no-such-hyp".

(** ** Exceptions *)

Inductive JsError :=
  | SyntaxError      (* JSON.parse rejected its argument *)
  | TransportError.  (* client.query rejected *)

Inductive result (A : Type) :=
  | Ok (a : A)
  | Throw (e : JsError).
Arguments Ok {A} a.
Arguments Throw {A} e.

(** Sequencing: an exception skips the rest of the computation. *)
#[global] Instance result_bind : MBind result := fun A B k r =>
  match r with
  | Ok a => k a
  | Throw e => Throw e
  end.

(** [arr.map(f)] where [f] may throw: elements are visited left to right and
    the first exception aborts the traversal. *)
Fixpoint mapM {A B} (f : A -> result B) (l : list A) : result (list B) :=
  match l with
  | [] => Ok []
  | a :: l' => b ← f a; bs ← mapM f l'; Ok (b :: bs)
  end.

(** ** JavaScript primitives used by the file *)

(** [Object.fromEntries(entries)]: properties are defined in order, a later
    entry with the same key overwrites an earlier one. *)
Definition fromEntries {V} (entries : list (string * V)) : gmap string V :=
  foldl (fun o kv => <[kv.1 := kv.2]> o) ∅ entries.

(** [{...a, ...b}]: the own properties of [a], then those of [b] on top. *)
Definition spread {V} (a b : gmap string V) : gmap string V := b ∪ a.

(** [x || null] on an optional string: [undefined], [null] and the empty
    string are falsy. *)
Definition or_null (x : option string) : option string :=
  match x with
  | Some "" => None
  | Some s => Some s
  | None => None
  end.

(** [arr[0]]: [None] is [undefined]. *)
Definition index0 {A} (arr : list A) : option A := arr !! 0%nat.

(** ** Data model *)

Record AssetKeyInput := { path : list string }.

(** [AssetColumnLineageServer]: one upstream reference and the parsed object,
    kept as its own-property list in enumeration order. *)
Record ServerUpstream := {
  upstream_asset_key : list (list string);
  upstream_column_name : string
}.

Definition AssetColumnLineageServer : Type := list (string * list ServerUpstream).

(** The object literal [{path: u.upstream_asset_key[0]!}]. The non-null
    assertion is erased at run time, so [path] holds [undefined] when the outer
    array is empty. *)
Record UpstreamAssetKey := { upstream_path : option (list string) }.

Record LocalUpstream := {
  assetKey : UpstreamAssetKey;
  columnName : string
}.

Record AssetColumnLineageLocalColumn := {
  name : string;
  type : option string;
  description : option string;
  asOf : option string;
  upstream : list LocalUpstream
}.

Abbreviation AssetColumnLineageLocal := (gmap string AssetColumnLineageLocalColumn).
Abbreviation AssetColumnLineages := (gmap string AssetColumnLineageLocal).

(** Result shape of [ASSET_COLUMN_LINEAGE_QUERY]. *)
Record TableColumn := {
  col_name : string;
  col_type : string;
  col_description : option string
}.

Record TableSchema := { columns : list TableColumn }.

Record TableSchemaMetadataEntry := { schema : option TableSchema }.

Record MetadataEntry := {
  typename : string;
  label : string;
  entry_schema : option TableSchema;   (* ... on TableSchemaMetadataEntry *)
  jsonString : option string           (* ... on JsonMetadataEntry *)
}.

Record Materialization := {
  timestamp : string;
  mat_metadataEntries : list MetadataEntry
}.

Record AssetNode := {
  node_id : string;
  node_assetKey : AssetKeyInput;
  metadataEntries : list MetadataEntry;
  assetMaterializations : list Materialization
}.

(** State of one hook instance: [loaded] is the [useState] cell and [fetching]
    the [useRef] cell; [outstanding] counts the [client.query] promises not yet
    settled. *)
Record HookState := {
  loaded : AssetColumnLineages;
  fetching : bool;
  outstanding : nat
}.

(** [useState({})] and [useRef(false)]. *)
Definition initial : HookState :=
  {| loaded := ∅; fetching := false; outstanding := 0 |}.

Inductive Event :=
  | Reevaluate (assetKeys : list AssetKeyInput)  (* the effect runs *)
  | QueryResolved (assetNodes : list AssetNode)  (* the awaited promise fulfils *)
  | QueryRejected.                               (* the awaited promise rejects *)

Inductive Observation :=
  | RemoteCall (assetKeys : list AssetKeyInput)  (* client.query({variables}) *)
  | Uncaught (e : JsError).                      (* an exception nobody catches *)

(** ** Sample collaborators and records

    Concrete stand-ins for the imported functions, used to run the embedding
    on examples. *)

Module Sample.

Definition graphId (k : AssetKeyInput) : string := String.concat "/" (path k).

Definition isLineageEntry (e : MetadataEntry) : bool :=
  String.eqb (typename e) "JsonMetadataEntry" && String.eqb (label e) "dagster/column_lineage".

Definition buildSchema (mat : option Materialization) (asset : AssetNode)
  : option TableSchemaMetadataEntry :=
  match List.find (fun e => bool_decide (is_Some (entry_schema e)))
                  (from_option mat_metadataEntries [] mat ++ metadataEntries asset) with
  | Some e => Some {| schema := entry_schema e |}
  | None => None
  end.

Definition payload_a : AssetColumnLineageServer :=
  [("a", [{| upstream_asset_key := [["t1"; "col_x"]]; upstream_column_name := "x" |}])].

Definition payload_unwrapped : AssetColumnLineageServer :=
  [("b", [{| upstream_asset_key := []; upstream_column_name := "y" |}])].

(** One column whose first reference has an empty outer sequence and whose
    second has the usual single-element one. *)
Definition ref_unwrapped : ServerUpstream :=
  {| upstream_asset_key := []; upstream_column_name := "y" |}.

Definition ref_wrapped : ServerUpstream :=
  {| upstream_asset_key := [["t1"; "col_x"]]; upstream_column_name := "x" |}.

Definition payload_mixed : AssetColumnLineageServer :=
  [("b", [ref_unwrapped; ref_wrapped])].

(** A parser that knows three texts and rejects every other one. *)
Definition parse (s : string) : result AssetColumnLineageServer :=
  if String.eqb s "payload_a" then Ok payload_a
  else if String.eqb s "payload_unwrapped" then Ok payload_unwrapped
  else if String.eqb s "payload_mixed" then Ok payload_mixed
  else Throw SyntaxError.

Definition lineageEntry (text : string) : MetadataEntry :=
  {| typename := "JsonMetadataEntry"; label := "dagster/column_lineage";
     entry_schema := None; jsonString := Some text |}.

Definition schemaEntry (cols : list TableColumn) : MetadataEntry :=
  {| typename := "TableSchemaMetadataEntry"; label := "dagster/column_schema";
     entry_schema := Some {| columns := cols |}; jsonString := None |}.

Definition key_t : AssetKeyInput := {| path := ["t"] |}.
Definition key_u : AssetKeyInput := {| path := ["u"] |}.

Definition column_a : TableColumn :=
  {| col_name := "a"; col_type := "INT"; col_description := None |}.

Definition column_z : TableColumn :=
  {| col_name := "z"; col_type := "TEXT"; col_description := Some "unused" |}.

Definition mat_t : Materialization :=
  {| timestamp := "1700000000";
     mat_metadataEntries := [schemaEntry [column_a; column_z]; lineageEntry "payload_a"] |}.

(** An asset with a snapshot carrying [payload_a] and a schema for [a], [z]. *)
Definition node_t : AssetNode :=
  {| node_id := "t"; node_assetKey := key_t; metadataEntries := [];
     assetMaterializations := [mat_t] |}.

Definition local_t : AssetColumnLineageLocal :=
  {[ "a" := {| name := "a"; type := Some "INT"; description := None;
               asOf := Some "1700000000";
               upstream :=
                 [{| assetKey := {| upstream_path := Some ["t1"; "col_x"] |};
                     columnName := "x" |}] |} ]}.

(** A cache in which [key_t] is resolved. *)
Definition cache_t : AssetColumnLineages := {[ "t" := local_t ]}.

(** An asset that was never materialized. *)
Definition node_u : AssetNode :=
  {| node_id := "u"; node_assetKey := key_u; metadataEntries := [];
     assetMaterializations := [] |}.

(** An asset whose lineage payload holds an empty [upstream_asset_key]. *)
Definition node_w : AssetNode :=
  {| node_id := "w"; node_assetKey := {| path := ["w"] |}; metadataEntries := [];
     assetMaterializations :=
       [{| timestamp := "1700000001";
           mat_metadataEntries := [lineageEntry "payload_unwrapped"] |}] |}.

(** An asset whose lineage text does not parse. *)
Definition node_bad : AssetNode :=
  {| node_id := "bad"; node_assetKey := {| path := ["bad"] |}; metadataEntries := [];
     assetMaterializations :=
       [{| timestamp := "1700000002";
           mat_metadataEntries := [lineageEntry "{"] |}] |}.

(** An asset whose lineage payload is [payload_mixed]. *)
Definition node_mixed : AssetNode :=
  {| node_id := "mixed"; node_assetKey := {| path := ["mixed"] |}; metadataEntries := [];
     assetMaterializations :=
       [{| timestamp := "1700000005";
           mat_metadataEntries := [lineageEntry "payload_mixed"] |}] |}.

(** The state after the first re-evaluation for [key_t] and [key_u]. *)
Definition st_fetching : HookState :=
  {| loaded := ∅; fetching := true; outstanding := 1 |}.

(** The state after the rejection of the call issued from [initial]. *)
Definition st_wedged : HookState :=
  {| loaded := ∅; fetching := true; outstanding := 0 |}.

(** A second column named [a], and a column whose type and description are
    empty strings. *)
Definition column_a2 : TableColumn :=
  {| col_name := "a"; col_type := "BIGINT"; col_description := Some "latest" |}.

Definition column_blank : TableColumn :=
  {| col_name := "a"; col_type := ""; col_description := Some "" |}.

(** An asset whose schema leaves the type and description of [a] blank. *)
Definition node_blank : AssetNode :=
  {| node_id := "blank"; node_assetKey := {| path := ["blank"] |}; metadataEntries := [];
     assetMaterializations :=
       [{| timestamp := "1700000003";
           mat_metadataEntries := [schemaEntry [column_blank]; lineageEntry "payload_a"] |}] |}.

(** An asset with two lineage entries in its first snapshot and a second
    snapshot. *)
Definition node_two : AssetNode :=
  {| node_id := "two"; node_assetKey := {| path := ["two"] |}; metadataEntries := [];
     assetMaterializations :=
       [{| timestamp := "1700000004";
           mat_metadataEntries :=
             [schemaEntry [column_z]; lineageEntry "payload_a"; lineageEntry "{"] |};
        {| timestamp := "1600000000";
           mat_metadataEntries := [lineageEntry "payload_unwrapped"] |}] |}.

End Sample.

(** ** The decoder and the hook *)

Section Hook.

(** Imported collaborators and the built-in parser. *)
Variable toGraphId : AssetKeyInput -> string.
Variable isCanonicalColumnLineageEntry : MetadataEntry -> bool.
Variable buildConsolidatedColumnSchema :
  option Materialization -> AssetNode -> option TableSchemaMetadataEntry.
(** [JSON.parse] followed by the cast to [AssetColumnLineageServer]. The cast
    is unchecked; the embedding follows the declared type, so [Ok] carries a
    value of that shape and [Throw] stands for a text the parser rejects. A
    text that parses to a value of another shape, on which the traversal
    would raise a [TypeError], is not represented: statements about the
    outcome of decoding assume [JSON_parse s = Ok parsed]. *)
Variable JSON_parse : string -> result AssetColumnLineageServer.

(** [schemaParsed] *)
Definition schemaParsed (tableSchema : option TableSchemaMetadataEntry)
  : gmap string TableColumn :=
  match tableSchema ≫= schema with
  | Some sch => fromEntries (map (fun col => (col_name col, col)) (columns sch))
  | None => ∅
  end.

(** The arrow function mapped over [m]. *)
Definition toLocalUpstream (u : ServerUpstream) : LocalUpstream :=
  {| assetKey := {| upstream_path := index0 (upstream_asset_key u) |};
     columnName := upstream_column_name u |}.

(** The arrow function mapped over [Object.entries(lineageParsed)]. *)
Definition toLocalColumn (materialization : option Materialization)
    (sp : gmap string TableColumn) (entry : string * list ServerUpstream)
  : string * AssetColumnLineageLocalColumn :=
  let '(column, m) := entry in
  (column,
   {| name := column;
      asOf := timestamp <$> materialization;
      type := or_null (col_type <$> sp !! column);
      description := or_null (sp !! column ≫= col_description);
      upstream := map toLocalUpstream m |}).

(** [materialization?.metadataEntries.find(isCanonicalColumnLineageEntry)] *)
Definition lineageMetadata (asset : AssetNode) : option MetadataEntry :=
  index0 (assetMaterializations asset) ≫=
    fun m => List.find isCanonicalColumnLineageEntry (mat_metadataEntries m).

Definition getColumnLineage (asset : AssetNode) : result AssetColumnLineageLocal :=
  let materialization := index0 (assetMaterializations asset) in
  match lineageMetadata asset with
  | None => Ok ∅
  | Some lm =>
      let tableSchema := buildConsolidatedColumnSchema materialization asset in
      lineageParsed ←
        match jsonString lm with
        | Some s => JSON_parse s
        | None => Throw SyntaxError   (* JSON.parse(undefined) *)
        end;
      let sp := schemaParsed tableSchema in
      Ok (fromEntries (map (toLocalColumn materialization sp) lineageParsed))
  end.

(** Truthiness of [loaded[graphId]]: every object, the empty one included,
    is truthy; [undefined] is falsy. Graph identifiers are taken not to name a
    member of [Object.prototype], so the read yields an own property or
    [undefined]. *)
Definition truthy (v : option AssetColumnLineageLocal) : bool :=
  match v with
  | Some _ => true
  | None => false
  end.

(** The [missing] memo. *)
Definition missing (assetKeys : list AssetKeyInput) (loaded : AssetColumnLineages)
  : list AssetKeyInput :=
  List.filter (fun a => negb (truthy (loaded !! toGraphId a))) assetKeys.

(** The entries built from the response inside the [setLoaded] updater. *)
Definition decodeNodes (assetNodes : list AssetNode)
  : result (list (string * AssetColumnLineageLocal)) :=
  mapM (fun n => l ← getColumnLineage n; Ok (toGraphId (node_assetKey n), l)) assetNodes.

(** The merge performed by the updater on an already decoded batch. *)
Definition merge (loaded newEntries : AssetColumnLineages) : AssetColumnLineages :=
  spread loaded newEntries.

(** The updater passed to [setLoaded]. *)
Definition updater (assetNodes : list AssetNode) (loaded : AssetColumnLineages)
  : result AssetColumnLineages :=
  entries ← decodeNodes assetNodes;
  Ok (merge loaded (fromEntries entries)).

(** *** The hook as a transition system *)

(** One event. [None]: the event cannot happen (a promise settles only if one
    is outstanding). *)
Definition step (s : HookState) (ev : Event) : option (HookState * list Observation) :=
  match ev with
  | Reevaluate assetKeys =>
      let m := missing assetKeys (loaded s) in
      if negb (fetching s) && negb (Nat.eqb (length m) 0) then
        (* fetching.current = true; client.query(...) *)
        Some ({| loaded := loaded s; fetching := true;
                 outstanding := S (outstanding s) |}, [RemoteCall m])
      else Some (s, [])
  | QueryResolved assetNodes =>
      match outstanding s with
      | O => None
      | S n =>
          (* fetching.current = false; setLoaded(updater) *)
          match updater assetNodes (loaded s) with
          | Ok loaded' =>
              Some ({| loaded := loaded'; fetching := false; outstanding := n |}, [])
          | Throw e =>
              (* The updater throws while React renders, and React then drops
                 the instance. The state is kept here, as an upper bound on
                 what can follow: only statements that no run does something
                 are drawn from this branch. *)
              Some ({| loaded := loaded s; fetching := false; outstanding := n |},
                    [Uncaught e])
          end
      end
  | QueryRejected =>
      match outstanding s with
      | O => None
      | S n =>
          (* the await throws: the rest of [fetch] is skipped *)
          Some ({| loaded := loaded s; fetching := fetching s; outstanding := n |},
                [Uncaught TransportError])
      end
  end.

Fixpoint run (s : HookState) (evs : list Event) : option (HookState * list Observation) :=
  match evs with
  | [] => Some (s, [])
  | ev :: evs' =>
      match step s ev with
      | None => None
      | Some (s1, o1) =>
          match run s1 evs' with
          | None => None
          | Some (s2, o2) => Some (s2, o1 ++ o2)
          end
      end
  end.

Definition reachable (s : HookState) : Prop :=
  exists evs obs, run initial evs = Some (s, obs).

(** At most one promise is outstanding, and the flag is up while it is. *)
Definition guarded (s : HookState) : Prop :=
  outstanding s <= 1 /\ (outstanding s = 1 -> fetching s = true).

(** *** Vocabulary for statements about runs *)

(** [toGraphId(n.assetKey)], the key under which the updater files a node. *)
Definition nodeId (n : AssetNode) : string := toGraphId (node_assetKey n).

Definition isRemoteCall (o : Observation) : bool :=
  match o with
  | RemoteCall _ => true
  | Uncaught _ => false
  end.

(** The events that fulfil a promise. *)
Definition fulfils (ev : Event) : bool :=
  match ev with
  | QueryResolved _ => true
  | Reevaluate _ | QueryRejected => false
  end.

(** The entities delivered by the responses of a sequence of events. *)
Definition deliveredNodes (evs : list Event) : list AssetNode :=
  flat_map (fun ev => match ev with QueryResolved nodes => nodes | _ => [] end) evs.

(** ** Facts about the primitives *)

Lemma fromEntries_snoc {V} (l : list (string * V)) k v :
  fromEntries (l ++ [(k, v)]) = <[k := v]> (fromEntries l).
Proof. unfold fromEntries. by rewrite foldl_app. Qed.

Lemma foldl_insert_dom {V} (l : list (string * V)) (o : gmap string V) :
  dom (foldl (fun o kv => <[kv.1 := kv.2]> o) o l) = dom o ∪ list_to_set l.*1.
Proof.
  revert o. induction l as [|[k v] l IH]; intros o; simpl.
  - set_solver.
  - rewrite IH, dom_insert_L. set_solver.
Qed.

Lemma fromEntries_dom {V} (l : list (string * V)) :
  dom (fromEntries l) = list_to_set l.*1.
Proof. unfold fromEntries. rewrite foldl_insert_dom, dom_empty_L. set_solver. Qed.

Lemma fromEntries_lookup_None {V} (l : list (string * V)) k :
  fromEntries l !! k = None <-> k ∉ l.*1.
Proof.
  rewrite <- not_elem_of_dom, fromEntries_dom. set_solver.
Qed.

Lemma spread_lookup {V} (a b : gmap string V) k :
  spread a b !! k = match b !! k with Some v => Some v | None => a !! k end.
Proof.
  unfold spread. rewrite lookup_union.
  destruct (b !! k), (a !! k); reflexivity.
Qed.

Lemma spread_dom {V} (a b : gmap string V) : dom (spread a b) = dom a ∪ dom b.
Proof. unfold spread. rewrite dom_union_L. set_solver. Qed.

Lemma mapM_fst {A B} (f : A -> result (string * B)) (g : A -> string) l r :
  (forall a b, f a = Ok b -> b.1 = g a) ->
  mapM f l = Ok r -> r.*1 = map g l.
Proof.
  intros Hf. revert r. induction l as [|a l IH]; intros r; simpl.
  - by intros [= <-].
  - destruct (f a) as [b|e] eqn:Ea; simpl; [|done].
    destruct (mapM f l) as [bs|e] eqn:El; simpl; [|done].
    intros [= <-]. simpl. f_equal; [by apply Hf | by apply IH].
Qed.

Lemma fromEntries_lookup_Some {V} (l : list (string * V)) k v :
  fromEntries l !! k = Some v -> (k, v) ∈ l.
Proof.
  induction l as [|[k' v'] l IH] using rev_ind; [done|].
  rewrite fromEntries_snoc, lookup_insert. case_decide as Hk.
  - intros [= ->]. subst. set_solver.
  - intros H. set_solver.
Qed.

Lemma fromEntries_app {V} (l1 l2 : list (string * V)) :
  fromEntries (l1 ++ l2) = fromEntries l2 ∪ fromEntries l1.
Proof.
  induction l2 as [|[k v] l2 IH] using rev_ind.
  - rewrite app_nil_r. unfold fromEntries at 2. simpl. by rewrite (left_id_L ∅ (∪)).
  - rewrite app_assoc, !fromEntries_snoc, IH. by rewrite insert_union_l.
Qed.

Lemma fromEntries_lookup_absent {V} (l : list (string * V)) k :
  k ∉ l.*1 -> fromEntries l !! k = None.
Proof using Type.
  induction l as [|[k' v'] l IH] using rev_ind; intros Hk; [done|].
  rewrite fmap_app in Hk. simpl in Hk.
  rewrite fromEntries_snoc, lookup_insert_ne.
  - apply IH. intros Hin. apply Hk, elem_of_app. by left.
  - intros ->. apply Hk, elem_of_app. right. by left.
Qed.

Lemma fromEntries_lookup_last {V} (pre post : list (string * V)) k v :
  k ∉ post.*1 -> fromEntries (pre ++ (k, v) :: post) !! k = Some v.
Proof using Type.
  intros Hk. rewrite (fromEntries_app pre), lookup_union.
  change ((k, v) :: post) with ([(k, v)] ++ post).
  rewrite (fromEntries_app [(k, v)]), lookup_union.
  rewrite (fromEntries_lookup_absent post k Hk).
  unfold fromEntries at 1. simpl. rewrite lookup_insert_eq.
  by destruct (fromEntries pre !! k).
Qed.

(** ** The decoder *)

Lemma getColumnLineage_payload asset lm s parsed :
  lineageMetadata asset = Some lm ->
  jsonString lm = Some s ->
  JSON_parse s = Ok parsed ->
  getColumnLineage asset =
    Ok (fromEntries
          (map (toLocalColumn (index0 (assetMaterializations asset))
                  (schemaParsed (buildConsolidatedColumnSchema
                                   (index0 (assetMaterializations asset)) asset)))
               parsed)).
Proof.
  intros Hlm Hs Hp. unfold getColumnLineage. rewrite Hlm, Hs, Hp. reflexivity.
Qed.

Lemma toLocalColumn_fst mat sp (l : AssetColumnLineageServer) :
  (map (toLocalColumn mat sp) l).*1 = l.*1.
Proof. induction l as [|[c m] l IH]; simpl; [done|]. by f_equal. Qed.

Lemma toLocalColumn_elem mat sp (l : AssetColumnLineageServer) c col :
  (c, col) ∈ map (toLocalColumn mat sp) l ->
  exists m, (c, m) ∈ l /\ col = (toLocalColumn mat sp (c, m)).2.
Proof.
  intros ([c' m] & Heq & Hin)%list_elem_of_fmap. simpl in Heq.
  injection Heq as -> ->. eauto.
Qed.

Lemma getColumnLineage_column asset lm s parsed out c col :
  lineageMetadata asset = Some lm ->
  jsonString lm = Some s ->
  JSON_parse s = Ok parsed ->
  getColumnLineage asset = Ok out ->
  out !! c = Some col ->
  exists m, (c, m) ∈ parsed /\
    col = (toLocalColumn (index0 (assetMaterializations asset))
             (schemaParsed (buildConsolidatedColumnSchema
                              (index0 (assetMaterializations asset)) asset))
             (c, m)).2.
Proof.
  intros Hlm Hs Hp Hout Hc.
  rewrite (getColumnLineage_payload _ _ _ _ Hlm Hs Hp) in Hout.
  injection Hout as <-.
  by apply toLocalColumn_elem, fromEntries_lookup_Some.
Qed.

Lemma getColumnLineage_no_payload asset :
  lineageMetadata asset = None -> getColumnLineage asset = Ok ∅.
Proof. intros H. unfold getColumnLineage. by rewrite H. Qed.

Lemma toLocalUpstream_lookup (m : list ServerUpstream) i u :
  m !! i = Some u -> map toLocalUpstream m !! i = Some (toLocalUpstream u).
Proof. intros H. change (map toLocalUpstream m) with (toLocalUpstream <$> m).
       by rewrite list_lookup_fmap, H. Qed.

(** Every column of every decoded entity is a key of a lineage payload that
    parsed: an entity without lineage entry decodes to the empty object. *)
Lemma decoded_column_has_lineage_key asset out c :
  getColumnLineage asset = Ok out ->
  is_Some (out !! c) ->
  exists lm s parsed,
    lineageMetadata asset = Some lm /\ jsonString lm = Some s /\
    JSON_parse s = Ok parsed /\ c ∈ parsed.*1.
Proof.
  intros Hout [col Hc].
  destruct (lineageMetadata asset) as [lm|] eqn:Hlm.
  - destruct (jsonString lm) as [s|] eqn:Hs;
      [|by unfold getColumnLineage in Hout; rewrite Hlm, Hs in Hout].
    destruct (JSON_parse s) as [parsed|e] eqn:Hp;
      [|by unfold getColumnLineage in Hout; rewrite Hlm, Hs, Hp in Hout].
    exists lm, s, parsed. repeat (split; [done|]).
    destruct (getColumnLineage_column _ _ _ _ _ _ _ Hlm Hs Hp Hout Hc) as (m & Hin & _).
    apply list_elem_of_fmap. by exists (c, m).
  - rewrite (getColumnLineage_no_payload _ Hlm) in Hout. injection Hout as <-.
    by rewrite lookup_empty in Hc.
Qed.

(** C8. Whenever the lineage text of an entity parses, the decoder succeeds
    and the column names of its output are exactly the keys of the parsed
    payload; a name that is not a key of the payload is absent from the
    output, whatever the consolidated schema lists. *)
Theorem decoded_columns_are_lineage_keys asset lm s parsed :
  lineageMetadata asset = Some lm ->
  jsonString lm = Some s ->
  JSON_parse s = Ok parsed ->
  exists out,
    getColumnLineage asset = Ok out /\
    dom out = list_to_set parsed.*1 /\
    (forall c, c ∈ parsed.*1 -> is_Some (out !! c)) /\
    (forall c, c ∉ parsed.*1 -> out !! c = None).
Proof.
  intros Hlm Hs Hp. eexists. split; [by eapply getColumnLineage_payload|].
  assert (Hdom : forall mat sp,
    dom (fromEntries (map (toLocalColumn mat sp) parsed)) = list_to_set parsed.*1).
  { intros. by rewrite fromEntries_dom, toLocalColumn_fst. }
  split; [apply Hdom|]. split.
  - intros c Hc. apply elem_of_dom. rewrite Hdom. set_solver.
  - intros c Hc. apply fromEntries_lookup_None. by rewrite toLocalColumn_fst.
Qed.

(** C2. Decoding an entity whose lineage text parses: every emitted column
    carries its own name, the snapshot timestamp, the type and description
    found under that name in the consolidated schema ([null] for both when
    the name is not there), and one upstream entry per reference whose path
    is the first inner sequence of [upstream_asset_key]. For the payload
    with the single column [a] and a schema giving [a] the type [INT], the
    output is exactly that one column. *)
Theorem decode_merges_schema_and_lineage asset mat lm s parsed :
  index0 (assetMaterializations asset) = Some mat ->
  lineageMetadata asset = Some lm ->
  jsonString lm = Some s ->
  JSON_parse s = Ok parsed ->
  let sp := schemaParsed (buildConsolidatedColumnSchema (Some mat) asset) in
  exists out,
    getColumnLineage asset = Ok out /\
    (forall c col, out !! c = Some col ->
       name col = c /\ asOf col = Some (timestamp mat) /\
       (sp !! c = None -> type col = None /\ description col = None) /\
       (forall tc, sp !! c = Some tc ->
          type col = or_null (Some (col_type tc)) /\
          description col = or_null (col_description tc)) /\
       exists m, (c, m) ∈ parsed /\
         length (upstream col) = length m /\
         forall i u p rest, m !! i = Some u -> upstream_asset_key u = p :: rest ->
           upstream col !! i =
             Some {| assetKey := {| upstream_path := Some p |};
                     columnName := upstream_column_name u |}) /\
    (parsed = Sample.payload_a ->
     forall tc, sp !! "a" = Some tc -> col_type tc = "INT" ->
       out = {[ "a" :=
                {| name := "a"; type := Some "INT";
                   description := or_null (col_description tc);
                   asOf := Some (timestamp mat);
                   upstream :=
                     [{| assetKey := {| upstream_path := Some ["t1"; "col_x"] |};
                         columnName := "x" |}] |} ]}).
Proof.
  intros Hmat Hlm Hs Hp sp.
  pose proof (getColumnLineage_payload _ _ _ _ Hlm Hs Hp) as Hdec.
  rewrite Hmat in Hdec. fold sp in Hdec.
  eexists. split; [exact Hdec|]. split.
  - intros c col Hc.
    destruct (getColumnLineage_column _ _ _ _ _ _ _ Hlm Hs Hp Hdec Hc)
      as (m & Hin & ->).
    rewrite Hmat. fold sp. simpl.
    split; [done|]. split; [done|]. split; [by intros ->|].
    split; [by intros tc ->|].
    exists m. split; [done|]. split; [by rewrite length_map|].
    intros i u q rest Hi Hu.
    rewrite (toLocalUpstream_lookup _ _ _ Hi).
    unfold toLocalUpstream, index0. by rewrite Hu.
  - intros -> tc Htc Hty. unfold Sample.payload_a. simpl.
    unfold fromEntries. simpl. rewrite Htc. simpl. rewrite Hty.
    by rewrite insert_empty.
Qed.

(** C10. The decoder reads [upstream_asset_key[0]] without a guard. When the
    lineage text parses the decoder succeeds whatever the length of the outer
    sequences, and every column of the payload is emitted with one upstream
    entry per reference, in order: a reference whose outer sequence has at
    least one element yields its first element as the path, and a reference
    whose outer sequence is empty yields an entry whose path is [undefined].
    When no outer sequence of the payload is empty, no emitted path is
    [undefined]. *)
Theorem unguarded_first_element asset lm s parsed pre c m post :
  lineageMetadata asset = Some lm ->
  jsonString lm = Some s ->
  JSON_parse s = Ok parsed ->
  parsed = pre ++ (c, m) :: post ->
  c ∉ post.*1 ->
  exists out col,
    getColumnLineage asset = Ok out /\
    out !! c = Some col /\
    length (upstream col) = length m /\
    (forall i u, m !! i = Some u ->
       exists lu, upstream col !! i = Some lu /\
         columnName lu = upstream_column_name u /\
         (forall p rest, upstream_asset_key u = p :: rest ->
            upstream_path (assetKey lu) = Some p) /\
         (upstream_asset_key u = [] -> upstream_path (assetKey lu) = None)) /\
    (forall c' col', out !! c' = Some col' ->
       exists m', (c', m') ∈ parsed /\
         forall i u, m' !! i = Some u ->
           exists lu, upstream col' !! i = Some lu /\
             columnName lu = upstream_column_name u /\
             (upstream_asset_key u <> [] ->
                exists p, upstream_path (assetKey lu) = Some p /\
                          head (upstream_asset_key u) = Some p) /\
             (upstream_asset_key u = [] -> upstream_path (assetKey lu) = None)) /\
    ((forall c' m' u, (c', m') ∈ parsed -> u ∈ m' -> upstream_asset_key u <> []) ->
     forall c' col' lu, out !! c' = Some col' -> lu ∈ upstream col' ->
       is_Some (upstream_path (assetKey lu))).
Proof.
  intros Hlm Hs Hp Hsplit Hlast.
  pose proof (getColumnLineage_payload _ _ _ _ Hlm Hs Hp) as Hdec.
  set (mat := index0 (assetMaterializations asset)) in *.
  set (sp := schemaParsed (buildConsolidatedColumnSchema mat asset)) in *.
  exists (fromEntries (map (toLocalColumn mat sp) parsed)),
         (toLocalColumn mat sp (c, m)).2.
  split; [exact Hdec|]. split.
  { rewrite Hsplit, map_app. simpl.
    apply (fromEntries_lookup_last (map (toLocalColumn mat sp) pre)
             (map (toLocalColumn mat sp) post) c).
    by rewrite toLocalColumn_fst. }
  split; [simpl; by rewrite length_map|]. split.
  { intros i u Hi. simpl. exists (toLocalUpstream u).
    split; [by apply toLocalUpstream_lookup|]. split; [done|].
    unfold toLocalUpstream, index0. simpl. split.
    - by intros p rest ->.
    - by intros ->. }
  split.
  - intros c' col' Hc.
    destruct (getColumnLineage_column _ _ _ _ _ _ _ Hlm Hs Hp Hdec Hc)
      as (m' & Hin & ->).
    exists m'. split; [done|]. intros i u Hi. simpl.
    exists (toLocalUpstream u). split; [by apply toLocalUpstream_lookup|].
    split; [done|]. unfold toLocalUpstream, index0. simpl.
    destruct (upstream_asset_key u) as [|q rest]; split; try done.
    intros _. by exists q.
  - intros Hne c' col' lu Hc Hlu.
    destruct (getColumnLineage_column _ _ _ _ _ _ _ Hlm Hs Hp Hdec Hc)
      as (m' & Hin & ->).
    simpl in Hlu. apply list_elem_of_fmap in Hlu as (u & -> & Hu).
    specialize (Hne _ _ _ Hin Hu). unfold toLocalUpstream, index0. simpl.
    destruct (upstream_asset_key u); [done|]. by eexists.
Qed.

(** ** The resolution cache *)

Lemma missing_elem req (c : AssetColumnLineages) k :
  k ∈ missing req c <-> k ∈ req /\ c !! toGraphId k = None.
Proof.
  unfold missing. rewrite !list_elem_of_In, filter_In.
  destruct (c !! toGraphId k); simpl; intuition congruence.
Qed.

Lemma missing_app r1 r2 (c : AssetColumnLineages) :
  missing (r1 ++ r2) c = missing r1 c ++ missing r2 c.
Proof. apply List.filter_app. Qed.

Lemma missing_sublist req (c : AssetColumnLineages) : sublist (missing req c) req.
Proof.
  induction req as [|a req IH]; simpl; [constructor|].
  destruct (negb _); by constructor.
Qed.

Lemma missing_anti req (c c' : AssetColumnLineages) :
  dom c ⊆ dom c' -> sublist (missing req c') (missing req c).
Proof.
  intros Hsub. induction req as [|a req IH]; simpl; [constructor|].
  destruct (c' !! toGraphId a) eqn:E'; destruct (c !! toGraphId a) eqn:E; simpl.
  - done.
  - by constructor.
  - apply (elem_of_dom_2 c) in E. apply Hsub in E.
    apply not_elem_of_dom in E'. done.
  - by constructor.
Qed.

Lemma merge_lookup (c b : AssetColumnLineages) k :
  merge c b !! k = match b !! k with Some v => Some v | None => c !! k end.
Proof. apply spread_lookup. Qed.

Lemma merge_dom (c b : AssetColumnLineages) : dom (merge c b) = dom c ∪ dom b.
Proof. apply spread_dom. Qed.

Lemma merge_all_dom (c : AssetColumnLineages) batches :
  dom c ⊆ dom (foldl merge c batches).
Proof.
  revert c. induction batches as [|b bs IH]; intros c; simpl; [done|].
  etrans; [|apply IH]. rewrite merge_dom. set_solver.
Qed.

Lemma decodeNodes_fst nodes entries :
  decodeNodes nodes = Ok entries ->
  entries.*1 = map (fun n => toGraphId (node_assetKey n)) nodes.
Proof.
  apply mapM_fst. intros n b. destruct (getColumnLineage n); simpl; [|done].
  by intros [= <-].
Qed.

Lemma updater_dom nodes (c c' : AssetColumnLineages) :
  updater nodes c = Ok c' ->
  dom c' = dom c ∪ list_to_set (map (fun n => toGraphId (node_assetKey n)) nodes).
Proof.
  unfold updater. destruct (decodeNodes nodes) as [entries|e] eqn:E; simpl; [|done].
  intros [= <-]. by rewrite merge_dom, fromEntries_dom, (decodeNodes_fst _ _ E).
Qed.

Lemma merge_idemp (c b : AssetColumnLineages) : merge (merge c b) b = merge c b.
Proof.
  apply map_eq. intros k. rewrite !merge_lookup. by destruct (b !! k).
Qed.

(** C3. [missing] keeps exactly the requested keys whose identifier has no
    entry in the cache, in the order (and with the multiplicity) of the
    request. *)
Theorem missing_is_the_unresolved_subsequence req1 req2 (c : AssetColumnLineages) :
  (forall k, k ∈ missing req1 c <-> k ∈ req1 /\ c !! toGraphId k = None) /\
  sublist (missing req1 c) req1 /\
  missing (req1 ++ req2) c = missing req1 c ++ missing req2 c /\
  (forall k, missing [k] c = if decide (c !! toGraphId k = None) then [k] else []).
Proof.
  split; [intros k; apply missing_elem|].
  split; [apply missing_sublist|].
  split; [apply missing_app|].
  intros k. simpl. by destruct (c !! toGraphId k).
Qed.

(** C6. Merging a batch overwrites or inserts each of its entries and keeps
    every other entry of the cache; merging the same batch a second time
    changes nothing, also when the batch is a response decoded by the
    updater. *)
Theorem merge_twice_is_merge_once nodes (c b : AssetColumnLineages) :
  merge (merge c b) b = merge c b /\
  (forall k, merge c b !! k = match b !! k with Some v => Some v | None => c !! k end) /\
  (forall c', updater nodes c = Ok c' -> updater nodes c' = Ok c').
Proof.
  split; [apply merge_idemp|]. split; [intros k; apply merge_lookup|].
  intros c'. unfold updater. destruct (decodeNodes nodes); simpl; [|done].
  intros [= <-]. by rewrite merge_idemp.
Qed.

(** ** The fetch coordinator *)

Ltac step_cases H :=
  match type of H with
  | step ?s ?ev = Some _ =>
      destruct ev as [keys|nodes|]; simpl in H;
      [ destruct (negb (fetching s) && negb (Nat.eqb (length (missing keys (loaded s))) 0)) eqn:?
      | destruct (outstanding s) as [|n] eqn:?; [discriminate H|];
        destruct (updater nodes (loaded s)) as [loaded'|e] eqn:?
      | destruct (outstanding s) as [|n] eqn:?; [discriminate H|] ];
      injection H as <- <-
  end.

Lemma step_dom_mono s ev s' o :
  step s ev = Some (s', o) -> dom (loaded s) ⊆ dom (loaded s').
Proof.
  intros H. step_cases H; simpl; try done.
  erewrite (updater_dom _ _ loaded') by eassumption. set_solver.
Qed.

Lemma step_calls_unresolved s ev s' o m a :
  step s ev = Some (s', o) -> RemoteCall m ∈ o -> a ∈ m ->
  toGraphId a ∉ dom (loaded s).
Proof.
  intros H Hm Ha. step_cases H; simpl in *; try set_solver.
  apply list_elem_of_singleton in Hm. injection Hm as ->.
  apply missing_elem in Ha as [_ Ha]. by apply not_elem_of_dom.
Qed.

Lemma run_cons_inv s ev evs s' obs :
  run s (ev :: evs) = Some (s', obs) ->
  exists s1 o1 o2, step s ev = Some (s1, o1) /\ run s1 evs = Some (s', o2) /\
                   obs = o1 ++ o2.
Proof.
  simpl. destruct (step s ev) as [[s1 o1]|]; [|done].
  destruct (run s1 evs) as [[s2 o2]|] eqn:Hrun; [|done].
  intros [= <- <-]. by exists s1, o1, o2.
Qed.

Lemma run_app s evs1 evs2 s1 o1 s2 o2 :
  run s evs1 = Some (s1, o1) -> run s1 evs2 = Some (s2, o2) ->
  run s (evs1 ++ evs2) = Some (s2, o1 ++ o2).
Proof.
  revert s o1. induction evs1 as [|ev evs1 IH]; intros s o1 H1 H2.
  - injection H1 as <- <-. done.
  - apply run_cons_inv in H1 as (sa & oa & ob & Hst & Hrun & ->).
    simpl. rewrite Hst, (IH _ _ Hrun H2). by rewrite app_assoc.
Qed.

Lemma run_dom_mono s evs s' obs :
  run s evs = Some (s', obs) -> dom (loaded s) ⊆ dom (loaded s').
Proof.
  revert s obs. induction evs as [|ev evs IH]; intros s obs H.
  - by injection H as <- <-.
  - apply run_cons_inv in H as (s1 & o1 & o2 & Hst & Hrun & ->).
    etrans; [by eapply step_dom_mono | by eapply IH].
Qed.

Lemma run_calls_unresolved s evs s' obs m a :
  run s evs = Some (s', obs) -> RemoteCall m ∈ obs -> a ∈ m ->
  toGraphId a ∉ dom (loaded s).
Proof.
  revert s obs. induction evs as [|ev evs IH]; intros s obs H Hm Ha.
  - injection H as <- <-. set_solver.
  - apply run_cons_inv in H as (s1 & o1 & o2 & Hst & Hrun & ->).
    apply elem_of_app in Hm as [Hm|Hm].
    + by eapply step_calls_unresolved.
    + intros Hin. eapply IH; [done..|]. by eapply step_dom_mono.
Qed.

Lemma step_guarded s ev s' o : guarded s -> step s ev = Some (s', o) -> guarded s'.
Proof.
  intros [Hle Hfl] H. unfold guarded. step_cases H; simpl; try (split; [lia|intros; lia]).
  - split; [|done].
    destruct (fetching s) eqn:Ef; [done|].
    destruct (outstanding s) as [|[|n]]; [lia| |lia]. by specialize (Hfl eq_refl).
  - done.
Qed.

Lemma run_guarded s evs s' obs : guarded s -> run s evs = Some (s', obs) -> guarded s'.
Proof.
  revert s obs. induction evs as [|ev evs IH]; intros s obs Hg H.
  - by injection H as <- <-.
  - apply run_cons_inv in H as (s1 & o1 & o2 & Hst & Hrun & ->).
    eapply IH; [|done]. by eapply step_guarded.
Qed.

Lemma reachable_guarded s : reachable s -> guarded s.
Proof.
  intros (evs & obs & H). eapply run_guarded; [|done].
  split; simpl; [lia|done].
Qed.

Lemma Reevaluate_noop s keys :
  fetching s = true \/ missing keys (loaded s) = [] ->
  step s (Reevaluate keys) = Some (s, []).
Proof.
  intros [H|H]; simpl; rewrite H; [done|]. simpl. by rewrite andb_false_r.
Qed.

Lemma Reevaluate_issues s keys :
  fetching s = false -> missing keys (loaded s) <> [] ->
  step s (Reevaluate keys) =
    Some ({| loaded := loaded s; fetching := true; outstanding := S (outstanding s) |},
          [RemoteCall (missing keys (loaded s))]).
Proof.
  intros Hf Hm. simpl. rewrite Hf. by destruct (missing keys (loaded s)).
Qed.

Lemma run_Reevaluate_noop s more :
  fetching s = true -> run s (map Reevaluate more) = Some (s, []).
Proof.
  intros Hf. induction more as [|keys more IH]; [done|].
  cbn [map run]. rewrite Reevaluate_noop by auto. by rewrite IH.
Qed.

Lemma run_only_reevaluations s evs s' obs :
  fetching s = true -> outstanding s = 0 ->
  run s evs = Some (s', obs) -> s' = s /\ obs = [].
Proof.
  intros Hf Ho. revert obs. induction evs as [|ev evs IH]; intros obs H.
  - by injection H as <- <-.
  - apply run_cons_inv in H as (s1 & o1 & o2 & Hst & Hrun & ->).
    destruct ev as [keys|nodes|]; simpl in Hst; rewrite ?Ho, ?Hf in Hst; try done.
    simpl in Hst. injection Hst as <- <-. by apply IH.
Qed.

(** C4. Along any sequence of merges, and along any run of the hook, the
    cache only grows: the missing list of a fixed request can only lose
    keys, a key whose identifier is in the cache is never reported missing
    again, and no remote call issued later asks for it. *)
Theorem resolved_keys_stay_resolved req s evs s' obs batches :
  run s evs = Some (s', obs) ->
  dom (loaded s) ⊆ dom (foldl merge (loaded s) batches) /\
  sublist (missing req (foldl merge (loaded s) batches)) (missing req (loaded s)) /\
  dom (loaded s) ⊆ dom (loaded s') /\
  sublist (missing req (loaded s')) (missing req (loaded s)) /\
  (forall k, is_Some (loaded s !! toGraphId k) ->
     (k ∉ missing req (foldl merge (loaded s) batches)) /\
     (k ∉ missing req (loaded s')) /\
     forall m, RemoteCall m ∈ obs -> k ∉ m).
Proof.
  intros Hrun.
  pose proof (merge_all_dom (loaded s) batches) as Hb.
  pose proof (run_dom_mono _ _ _ _ Hrun) as Hr.
  split; [done|]. split; [by apply missing_anti|].
  split; [done|]. split; [by apply missing_anti|].
  intros k Hk%elem_of_dom. split; [|split].
  - rewrite missing_elem. intros [_ Hn%not_elem_of_dom]. set_solver.
  - rewrite missing_elem. intros [_ Hn%not_elem_of_dom]. set_solver.
  - intros m Hm Hin. by eapply run_calls_unresolved.
Qed.

(** C7. An entity without snapshot, or whose snapshot has no lineage entry,
    decodes to the empty object without an exception; a response made of it
    is merged under its identifier, and from then on no key with that
    identifier is missing, however many batches are merged afterwards. *)
Theorem empty_lineage_is_resolved asset nodes (c c' : AssetColumnLineages) req batches :
  (assetMaterializations asset = [] \/
   exists mat, index0 (assetMaterializations asset) = Some mat /\
     List.find isCanonicalColumnLineageEntry (mat_metadataEntries mat) = None) ->
  asset ∈ nodes ->
  updater nodes c = Ok c' ->
  getColumnLineage asset = Ok ∅ /\
  updater [asset] c = Ok (<[toGraphId (node_assetKey asset) := ∅]> c) /\
  is_Some (c' !! toGraphId (node_assetKey asset)) /\
  (forall k, toGraphId k = toGraphId (node_assetKey asset) ->
     (k ∉ missing req c') /\ (k ∉ missing req (foldl merge c' batches))).
Proof.
  intros Hempty Hin Hup.
  assert (Hdec : getColumnLineage asset = Ok ∅).
  { apply getColumnLineage_no_payload. unfold lineageMetadata.
    destruct Hempty as [-> | (mat & -> & Hfind)]; [done|]. by simpl. }
  assert (Hdom : toGraphId (node_assetKey asset) ∈ dom c').
  { rewrite (updater_dom _ _ _ Hup). apply elem_of_union_r, elem_of_list_to_set.
    apply list_elem_of_In, in_map_iff. exists asset. by rewrite <- list_elem_of_In. }
  split; [done|]. split.
  - unfold updater, decodeNodes. simpl. rewrite Hdec. simpl.
    unfold fromEntries, merge, spread. simpl.
    by rewrite insert_empty, <- insert_union_singleton_l.
  - split; [by apply elem_of_dom|].
    intros k Hk. rewrite !missing_elem, Hk. split.
    + intros [_ Hn%not_elem_of_dom]. done.
    + intros [_ Hn%not_elem_of_dom]. apply Hn. by apply merge_all_dom.
Qed.

(** C5. In every reachable state at most one remote call is outstanding. A
    re-evaluation that finds nothing missing, or that arrives while a call
    is outstanding, leaves the state as it is and issues nothing. A
    re-evaluation that starts a fetch, followed by any number of further
    re-evaluations before the call settles, issues exactly one remote call,
    for the keys missing when it was issued. *)
Theorem single_fetch_in_flight s keys more :
  reachable s ->
  outstanding s <= 1 /\
  (missing keys (loaded s) = [] \/ 0 < outstanding s ->
     step s (Reevaluate keys) = Some (s, [])) /\
  (fetching s = false -> missing keys (loaded s) <> [] ->
     run s (Reevaluate keys :: map Reevaluate more) =
       Some ({| loaded := loaded s; fetching := true; outstanding := 1 |},
             [RemoteCall (missing keys (loaded s))])).
Proof.
  intros [Hle Hfl]%reachable_guarded. split; [done|]. split.
  - intros [Hm|Ho]; apply Reevaluate_noop; [by right|left].
    apply Hfl. lia.
  - intros Hf Hm.
    assert (Ho : outstanding s = 0).
    { destruct (outstanding s) as [|[|n]]; [done| |lia].
      specialize (Hfl eq_refl). congruence. }
    cbn [run]. rewrite (Reevaluate_issues _ _ Hf Hm), Ho.
    by rewrite run_Reevaluate_noop.
Qed.

Lemma run_stays_absent s evs s' obs g :
  run s evs = Some (s', obs) ->
  g ∉ dom (loaded s) ->
  (forall nodes n, QueryResolved nodes ∈ evs -> n ∈ nodes ->
     toGraphId (node_assetKey n) <> g) ->
  g ∉ dom (loaded s').
Proof.
  revert s obs. induction evs as [|ev evs IH]; intros s obs H Hg Hev.
  - by injection H as <- <-.
  - apply run_cons_inv in H as (s1 & o1 & o2 & Hst & Hrun & ->).
    eapply IH; [done| |intros nodes n Hin; apply Hev; set_solver].
    assert (Hhd : forall nodes n, ev = QueryResolved nodes -> n ∈ nodes ->
                    toGraphId (node_assetKey n) <> g).
    { intros nodes n -> Hn. eapply Hev; [|done]. set_solver. }
    step_cases Hst; simpl; try done.
    erewrite (updater_dom _ _ loaded') by eassumption.
    intros [Hin|Hin%elem_of_list_to_set]%elem_of_union; [done|].
    apply list_elem_of_In, in_map_iff in Hin as (n' & Heq & Hn').
    eapply Hhd; [done| |done]. by apply list_elem_of_In.
Qed.

(** C9. A response that decodes adds to the cache exactly the identifiers of
    the entities it contains. A requested key that was missing and whose
    identifier is not in the response is still missing afterwards; the next
    re-evaluation asks for it again, and so does every later re-evaluation
    that starts a fetch, as long as no response contains it. *)
Theorem unanswered_keys_are_requested_again s nodes s' k req evs s2 obs s3 o :
  step s (QueryResolved nodes) = Some (s', []) ->
  k ∈ req ->
  toGraphId k ∉ dom (loaded s) ->
  (forall n, n ∈ nodes -> toGraphId (node_assetKey n) <> toGraphId k) ->
  run s' evs = Some (s2, obs) ->
  (forall nodes' n, QueryResolved nodes' ∈ evs -> n ∈ nodes' ->
     toGraphId (node_assetKey n) <> toGraphId k) ->
  step s2 (Reevaluate req) = Some (s3, o) ->
  dom (loaded s') =
    dom (loaded s) ∪ list_to_set (map (fun n => toGraphId (node_assetKey n)) nodes) /\
  loaded s' !! toGraphId k = None /\
  k ∈ missing req (loaded s') /\
  (exists m, step s' (Reevaluate req) =
               Some ({| loaded := loaded s'; fetching := true;
                        outstanding := S (outstanding s') |}, [RemoteCall m]) /\
             k ∈ m) /\
  k ∈ missing req (loaded s2) /\
  (o = [] \/ exists m, o = [RemoteCall m] /\ k ∈ m).
Proof.
  intros Hst Hreq Hk Hnodes Hrun Hevs Hst2.
  assert (Hdom : dom (loaded s') =
    dom (loaded s) ∪ list_to_set (map (fun n => toGraphId (node_assetKey n)) nodes)
    /\ fetching s' = false).
  { simpl in Hst. destruct (outstanding s); [done|].
    destruct (updater nodes (loaded s)) eqn:Hu; [|done].
    injection Hst as <-. simpl. split; [by apply updater_dom|done]. }
  destruct Hdom as [Hdom Hf].
  assert (Hk' : toGraphId k ∉ dom (loaded s')).
  { rewrite Hdom. intros [Hin|Hin%elem_of_list_to_set]%elem_of_union; [done|].
    apply list_elem_of_In, in_map_iff in Hin as (n & Heq & Hn).
    eapply Hnodes; [|done]. by apply list_elem_of_In. }
  assert (Hmiss : k ∈ missing req (loaded s')).
  { apply missing_elem. split; [done|]. by apply not_elem_of_dom. }
  assert (Hmiss2 : k ∈ missing req (loaded s2)).
  { apply missing_elem. split; [done|]. apply not_elem_of_dom.
    by eapply run_stays_absent. }
  split; [done|]. split; [by apply not_elem_of_dom|]. split; [done|]. split.
  - eexists. split; [|exact Hmiss]. apply Reevaluate_issues; [done|].
    intros Hnil. rewrite Hnil in Hmiss. set_solver.
  - split; [done|]. simpl in Hst2.
    destruct (negb (fetching s2) && _); injection Hst2 as <- <-; eauto.
Qed.

(** C1. When the remote call rejects, the hook keeps the cache as it was but
    leaves the [fetching] flag up with no call outstanding: from that state
    on every re-evaluation is a no-op, so nothing is ever fetched again. *)
Theorem rejected_query_leaves_flag_set s keys evs s2 obs :
  reachable s ->
  0 < outstanding s ->
  exists s',
    step s QueryRejected = Some (s', [Uncaught TransportError]) /\
    loaded s' = loaded s /\ fetching s' = true /\ outstanding s' = 0 /\
    step s' (Reevaluate keys) = Some (s', []) /\
    (run s' evs = Some (s2, obs) -> s2 = s' /\ obs = []).
Proof.
  intros [Hle Hfl]%reachable_guarded Ho.
  assert (Ho1 : outstanding s = 1) by lia.
  exists {| loaded := loaded s; fetching := fetching s; outstanding := 0 |}.
  split; [by cbn; rewrite Ho1|].
  split; [done|]. split; [by apply Hfl|]. split; [done|].
  split; [apply Reevaluate_noop; left; by apply Hfl|].
  apply run_only_reevaluations; [by apply Hfl|done].
Qed.

(** ** Further properties of the decoder *)

Lemma fromEntries_nil_inv {V} (l : list (string * V)) : fromEntries l = ∅ -> l = [].
Proof.
  intros H. destruct l as [|[k v] l]; [done|].
  assert (Hd : k ∈ dom (fromEntries ((k, v) :: l))).
  { rewrite fromEntries_dom. set_solver. }
  rewrite H, dom_empty_L in Hd. set_solver.
Qed.

Lemma or_null_nonempty x : or_null x <> Some EmptyString.
Proof. destruct x as [[|a s]|]; simpl; congruence. Qed.

(** X2. The decoder returns the empty object in two cases only: the snapshot
    has no lineage entry, or the lineage text parses to an object without
    columns. *)
Theorem decode_empty_iff asset :
  getColumnLineage asset = Ok ∅ <->
  lineageMetadata asset = None \/
  exists lm s, lineageMetadata asset = Some lm /\ jsonString lm = Some s /\
               JSON_parse s = Ok [].
Proof.
  split.
  - intros Hout. destruct (lineageMetadata asset) as [lm|] eqn:Hlm; [|by left].
    right. unfold getColumnLineage in Hout. rewrite Hlm in Hout.
    destruct (jsonString lm) as [s|] eqn:Hs; [|done].
    destruct (JSON_parse s) as [parsed|e'] eqn:Hp; [|done].
    simpl in Hout. injection Hout as Hout.
    apply fromEntries_nil_inv, fmap_nil_inv in Hout. subst parsed.
    by exists lm, s.
  - intros [Hlm | (lm & s & Hlm & Hs & Hp)].
    + by apply getColumnLineage_no_payload.
    + by rewrite (getColumnLineage_payload _ _ _ _ Hlm Hs Hp).
Qed.

(** X3. No decoded column carries an empty string as type or description: an
    empty string in the schema is turned into [null], like a missing one. *)
Theorem decoded_type_never_empty_string asset out c col :
  getColumnLineage asset = Ok out ->
  out !! c = Some col ->
  type col <> Some EmptyString /\ description col <> Some EmptyString.
Proof.
  intros Hout Hc.
  destruct (decoded_column_has_lineage_key asset out c Hout (mk_is_Some _ _ Hc))
    as (lm & s & parsed & Hlm & Hs & Hp & _).
  destruct (getColumnLineage_column _ _ _ _ _ _ _ Hlm Hs Hp Hout Hc) as (m & _ & ->).
  simpl. split; apply or_null_nonempty.
Qed.

(** X4. When the consolidated schema lists a column name more than once, the
    last column of that name is the one consulted; without a schema, or for a
    name the schema does not list, nothing is found. *)
Theorem schemaParsed_last_column_wins ts pre col post :
  schema ts = Some {| columns := pre ++ col :: post |} ->
  (forall col', col' ∈ post -> col_name col' <> col_name col) ->
  schemaParsed (Some ts) !! col_name col = Some col /\
  (forall c, (forall col', col' ∈ pre ++ col :: post -> col_name col' <> c) ->
     schemaParsed (Some ts) !! c = None) /\
  schemaParsed None = ∅.
Proof using Type.
  intros Hts Hpost. unfold schemaParsed. simpl. rewrite Hts. simpl.
  split; [|split; [|done]].
  - rewrite map_app. simpl.
    apply (fromEntries_lookup_last _ _ (col_name col) col).
    intros Hin. apply list_elem_of_fmap in Hin as ([k col'] & Hk & Hin).
    apply list_elem_of_In, in_map_iff in Hin as (col'' & [= <- <-] & Hin).
    simpl in Hk. eapply Hpost; [by apply list_elem_of_In|done].
  - intros c Hc. apply fromEntries_lookup_absent.
    intros Hin. apply list_elem_of_fmap in Hin as ([k col'] & Hk & Hin).
    apply list_elem_of_In, in_map_iff in Hin as (col'' & [= <- <-] & Hin).
    simpl in Hk. eapply Hc; [by apply list_elem_of_In|done].
Qed.

(** X5. Only the first snapshot is read, and in it the first entry accepted by
    [isCanonicalColumnLineageEntry]: later entries and later snapshots do not
    change which lineage text is decoded. *)
Theorem first_lineage_entry_is_used asset mat rest pre lm post :
  assetMaterializations asset = mat :: rest ->
  mat_metadataEntries mat = pre ++ lm :: post ->
  isCanonicalColumnLineageEntry lm = true ->
  (forall e, e ∈ pre -> isCanonicalColumnLineageEntry e = false) ->
  lineageMetadata asset = Some lm /\
  (forall parsed s, jsonString lm = Some s -> JSON_parse s = Ok parsed ->
     exists out, getColumnLineage asset = Ok out /\ dom out = list_to_set parsed.*1) /\
  (forall e s, jsonString lm = Some s -> JSON_parse s = Throw e ->
     getColumnLineage asset = Throw e).
Proof.
  intros Hmats Hentries Hlm Hpre.
  assert (H : lineageMetadata asset = Some lm).
  { unfold lineageMetadata. rewrite Hmats. simpl. rewrite Hentries.
    clear Hentries. induction pre as [|e pre IH]; simpl; [by rewrite Hlm|].
    rewrite (Hpre e) by set_solver. apply IH. intros e' He'. apply Hpre. set_solver. }
  split; [done|]. split.
  - intros parsed s Hs Hp. eexists. split; [by eapply getColumnLineage_payload|].
    by rewrite fromEntries_dom, toLocalColumn_fst.
  - intros e s Hs Hp. unfold getColumnLineage. by rewrite H, Hs, Hp.
Qed.

(** ** Further properties of the cache and of the updater *)

Lemma mapM_app {A B} (f : A -> result B) l1 l2 :
  mapM f (l1 ++ l2) = r1 ← mapM f l1; r2 ← mapM f l2; Ok (r1 ++ r2).
Proof.
  induction l1 as [|a l1 IH]; simpl.
  - by destruct (mapM f l2).
  - destruct (f a); simpl; [|done]. rewrite IH.
    destruct (mapM f l1); simpl; [|done]. by destruct (mapM f l2).
Qed.

Lemma mapM_Ok_iff {A B} (f : A -> result B) l :
  (exists r, mapM f l = Ok r) <-> forall a, a ∈ l -> exists b, f a = Ok b.
Proof.
  induction l as [|a l IH]; simpl.
  - split; [intros _ a Ha; by apply not_elem_of_nil in Ha | by eexists].
  - split.
    + intros [r Hr] a' Ha'. destruct (f a) as [b|] eqn:Ea; [|done].
      destruct (mapM f l) as [bs|] eqn:El; [|done].
      apply elem_of_cons in Ha' as [->|Ha']; [by eexists|].
      apply IH; [by eexists|done].
    + intros H. destruct (H a) as [b ->]; [by left|].
      destruct (proj2 IH) as [bs ->]; [|by eexists].
      intros a' Ha'. apply H. by right.
Qed.

Lemma missing_ext req (c c' : AssetColumnLineages) :
  (forall k, k ∈ req -> truthy (c' !! toGraphId k) = truthy (c !! toGraphId k)) ->
  missing req c' = missing req c.
Proof.
  intros H. induction req as [|a req IH]; simpl; [done|].
  rewrite (H a) by by left. rewrite IH; [done|].
  intros k Hk. apply H. by right.
Qed.

Lemma updater_lookup_other nodes (c c' : AssetColumnLineages) g :
  updater nodes c = Ok c' ->
  (forall n, n ∈ nodes -> nodeId n <> g) ->
  c' !! g = c !! g.
Proof.
  unfold updater. destruct (decodeNodes nodes) as [entries|] eqn:E; simpl; [|done].
  intros [= <-] Hg. rewrite merge_lookup.
  assert (Hn : fromEntries entries !! g = None); [|by rewrite Hn].
  apply fromEntries_lookup_None. rewrite (decodeNodes_fst _ _ E).
  intros Hin. apply list_elem_of_In, in_map_iff in Hin as (n & Hn & Hin).
  eapply Hg; [by apply list_elem_of_In|done].
Qed.

(** X6. The updater decodes the whole response before it merges anything: it
    succeeds exactly when every entity of the response decodes, and otherwise
    throws the exception of the first entity that does not. *)
Theorem updater_all_or_nothing nodes pre n post e (c : AssetColumnLineages) :
  (forall p, p ∈ pre -> exists l, getColumnLineage p = Ok l) ->
  getColumnLineage n = Throw e ->
  updater (pre ++ n :: post) c = Throw e /\
  ((exists c', updater nodes c = Ok c') <->
   forall n', n' ∈ nodes -> exists l, getColumnLineage n' = Ok l).
Proof.
  intros Hpre Hn. split.
  - unfold updater, decodeNodes. rewrite mapM_app.
    destruct (proj2 (mapM_Ok_iff
      (fun n => l ← getColumnLineage n; Ok (toGraphId (node_assetKey n), l)) pre))
      as [r ->].
    { intros p Hp. destruct (Hpre p Hp) as [l ->]. by eexists. }
    simpl. by rewrite Hn.
  - unfold updater, decodeNodes. split.
    + intros [c' Hc'] n' Hn'.
      destruct (mapM _ nodes) as [r|] eqn:E; [|done].
      destruct (proj1 (mapM_Ok_iff _ nodes) (ex_intro _ r E) n' Hn') as [b Hb].
      destruct (getColumnLineage n'); [by eexists|done].
    + intros H.
      destruct (proj2 (mapM_Ok_iff
        (fun n => l ← getColumnLineage n; Ok (toGraphId (node_assetKey n), l)) nodes))
        as [r ->]; [|by eexists].
      intros n' Hn'. destruct (H n' Hn') as [l ->]. by eexists.
Qed.

(** X7. After a response that decodes, an identifier that no entity of the
    response has keeps its cache entry, and the identifier of a response
    entity holds the decoding of the last entity with that identifier,
    whatever the cache held before. *)
Theorem updater_lookup nodes pre n post (c c' : AssetColumnLineages) :
  updater nodes c = Ok c' ->
  nodes = pre ++ n :: post ->
  (forall n', n' ∈ post -> nodeId n' <> nodeId n) ->
  (exists l, getColumnLineage n = Ok l /\ c' !! nodeId n = Some l) /\
  (forall g, (forall n', n' ∈ nodes -> nodeId n' <> g) -> c' !! g = c !! g).
Proof.
  intros Hup -> Hpost. unfold nodeId in *. split.
  - unfold updater, decodeNodes in Hup. rewrite mapM_app in Hup.
    destruct (mapM _ pre) as [r1|] eqn:E1; [|done]. simpl in Hup.
    destruct (getColumnLineage n) as [l|] eqn:En; [|done]. simpl in Hup.
    destruct (mapM _ post) as [r2|] eqn:E2; [|done]. simpl in Hup.
    injection Hup as <-. exists l. split; [done|].
    rewrite merge_lookup.
    rewrite (fromEntries_lookup_last r1 r2 (toGraphId (node_assetKey n)) l); [done|].
    rewrite (decodeNodes_fst post r2 E2).
    intros Hin. apply list_elem_of_In, in_map_iff in Hin as (n' & Heq & Hin).
    eapply Hpost; [by apply list_elem_of_In|done].
  - intros g Hg. eapply updater_lookup_other; [done|]. apply Hg.
Qed.

(** X8. Applying the updater for one response and then for a second one is
    the same as applying it once for the two responses put end to end, also
    when one of them fails to decode. *)
Theorem updater_app nodes1 nodes2 (c : AssetColumnLineages) :
  updater (nodes1 ++ nodes2) c = updater nodes1 c ≫= updater nodes2.
Proof.
  unfold updater, decodeNodes. rewrite mapM_app.
  destruct (mapM _ nodes1) as [r1|]; simpl; [|done].
  destruct (mapM _ nodes2) as [r2|]; simpl; [|done].
  f_equal. unfold merge, spread. by rewrite fromEntries_app, (assoc_L (∪)).
Qed.

Lemma missing_unresolved req (c : AssetColumnLineages) k :
  k ∈ missing req c -> k ∈ req /\ c !! toGraphId k = None.
Proof using Type.
  unfold missing. rewrite !list_elem_of_In, filter_In. intros [Hin Hk].
  split; [exact Hin|]. destruct (c !! toGraphId k); [discriminate Hk|reflexivity].
Qed.

Lemma unresolved_missing req (c : AssetColumnLineages) k :
  k ∈ req -> c !! toGraphId k = None -> k ∈ missing req c.
Proof using Type.
  unfold missing. rewrite !list_elem_of_In, filter_In. intros Hin Hk.
  split; [exact Hin|]. rewrite Hk. reflexivity.
Qed.

(** X9. [missing] at its two ends: it returns the whole request exactly when
    no requested key is in the cache (in particular on the empty cache) and
    the empty list exactly when every requested key is; filtering its own
    result again changes nothing. *)
Theorem missing_all_or_none req (c : AssetColumnLineages) :
  (missing req c = req <-> forall k, k ∈ req -> c !! toGraphId k = None) /\
  (missing req c = [] <-> forall k, k ∈ req -> is_Some (c !! toGraphId k)) /\
  missing req ∅ = req /\
  missing (missing req c) c = missing req c.
Proof using Type.
  assert (Hall : missing req c = req <-> forall k, k ∈ req -> c !! toGraphId k = None).
  { split.
    - intros Heq k Hk. rewrite <- Heq in Hk. exact (proj2 (missing_unresolved _ _ _ Hk)).
    - intros H. induction req as [|a req IH]; simpl; [reflexivity|].
      rewrite (H a (list_elem_of_here _ _)). simpl. f_equal. apply IH.
      intros k Hk. apply H. apply list_elem_of_further, Hk. }
  split; [exact Hall|]. split; [|split].
  - split.
    + intros Heq k Hk. destruct (c !! toGraphId k) eqn:E; [eexists; reflexivity|].
      pose proof (unresolved_missing req c k Hk E) as Hm.
      rewrite Heq in Hm. apply not_elem_of_nil in Hm. destruct Hm.
    + intros H. destruct (missing req c) as [|k l] eqn:E; [reflexivity|].
      assert (Hk : k ∈ missing req c) by (rewrite E; apply list_elem_of_here).
      apply missing_unresolved in Hk as [Hk Hn]. destruct (H k Hk) as [v Hv].
      rewrite Hn in Hv. discriminate Hv.
  - clear Hall. unfold missing. induction req as [|a req IH]; simpl; [reflexivity|].
    rewrite lookup_empty. simpl. f_equal. exact IH.
  - clear Hall. unfold missing.
    induction req as [|a req IH]; simpl; [reflexivity|].
    destruct (negb (truthy (c !! toGraphId a))) eqn:E; simpl; [|exact IH].
    rewrite E. f_equal. exact IH.
Qed.

(** ** Further properties of the fetch coordinator *)

Lemma step_call_origin s ev s' o m :
  step s ev = Some (s', o) -> RemoteCall m ∈ o ->
  m <> [] /\ exists keys, ev = Reevaluate keys /\ m = missing keys (loaded s).
Proof.
  intros H Hm. step_cases H; simpl in *; try set_solver.
  apply list_elem_of_singleton in Hm. injection Hm as ->. split; [|by eexists].
  intros Hnil. rewrite Hnil in *. simpl in *. by rewrite andb_false_r in *.
Qed.

Lemma step_loaded_origin s ev s' o :
  step s ev = Some (s', o) ->
  loaded s' = loaded s \/
  exists nodes, ev = QueryResolved nodes /\ updater nodes (loaded s) = Ok (loaded s').
Proof.
  intros H. step_cases H; simpl; eauto.
Qed.

(** X10. The hook never sends a query with an empty key list: each remote
    call of a run was issued by one of its re-evaluations, for a non-empty
    selection of the keys requested there, in their order. *)
Theorem remote_calls_are_nonempty s evs s' obs m :
  run s evs = Some (s', obs) ->
  RemoteCall m ∈ obs ->
  m <> [] /\ exists keys, Reevaluate keys ∈ evs /\ sublist m keys.
Proof.
  revert s obs. induction evs as [|ev evs IH]; intros s obs H Hm.
  - injection H as <- <-. by apply not_elem_of_nil in Hm.
  - apply run_cons_inv in H as (s1 & o1 & o2 & Hst & Hrun & ->).
    apply elem_of_app in Hm as [Hm|Hm].
    + destruct (step_call_origin _ _ _ _ _ Hst Hm) as (Hne & keys & -> & ->).
      split; [done|]. exists keys. split; [by left|apply missing_sublist].
    + destruct (IH _ _ Hrun Hm) as (Hne & keys & Hin & Hsub).
      split; [done|]. exists keys. split; [by right|done].
Qed.

Lemma step_calls_bound s ev s' o :
  step s ev = Some (s', o) ->
  length (List.filter isRemoteCall o) + (if fetching s' then 0 else 1) <=
    (if fulfils ev then 1 else 0) + (if fetching s then 0 else 1).
Proof.
  intros H. step_cases H; simpl; destruct (fetching s); simpl in *; first [lia|discriminate].
Qed.

(** X11. Only a fulfilled response re-arms the hook: along a run, the remote
    calls issued never outnumber the fulfilled responses by more than one, and
    not at all when the flag is up at the start or down at the end. A
    rejected call is never followed by a new one unless a response is
    fulfilled in between. *)
Theorem calls_bounded_by_fulfilled_responses s evs s' obs :
  run s evs = Some (s', obs) ->
  length (List.filter isRemoteCall obs) + (if fetching s' then 0 else 1) <=
    length (List.filter fulfils evs) + (if fetching s then 0 else 1).
Proof.
  revert s obs. induction evs as [|ev evs IH]; intros s obs H.
  - injection H as <- <-. simpl. lia.
  - apply run_cons_inv in H as (s1 & o1 & o2 & Hst & Hrun & ->).
    rewrite List.filter_app, length_app.
    pose proof (step_calls_bound _ _ _ _ Hst) as H1.
    pose proof (IH _ _ Hrun) as H2.
    simpl. destruct (fulfils ev); simpl in *; lia.
Qed.

(** X12. Cache entries come from responses only: after a run, every
    identifier in the cache was in it at the start or is the identifier of an
    entity delivered by a response of the run. *)
Theorem cache_entries_come_from_responses s evs s' obs :
  run s evs = Some (s', obs) ->
  dom (loaded s') ⊆ dom (loaded s) ∪ list_to_set (map nodeId (deliveredNodes evs)).
Proof.
  revert s obs. induction evs as [|ev evs IH]; intros s obs H.
  - injection H as <- <-. set_solver.
  - apply run_cons_inv in H as (s1 & o1 & o2 & Hst & Hrun & ->).
    etrans; [by eapply IH|].
    unfold deliveredNodes. simpl. rewrite map_app, list_to_set_app_L.
    destruct (step_loaded_origin _ _ _ _ Hst) as [-> | (nodes & -> & Hup)].
    + set_solver.
    + rewrite (updater_dom _ _ _ Hup). unfold nodeId. set_solver.
Qed.

(** X13. Re-evaluations and rejected calls never touch the cache: a run
    without fulfilled response ends with the cache it started with. *)
Theorem cache_changes_only_on_response s evs s' obs :
  run s evs = Some (s', obs) ->
  (forall nodes, QueryResolved nodes ∉ evs) ->
  loaded s' = loaded s.
Proof.
  revert s obs. induction evs as [|ev evs IH]; intros s obs H Hev.
  - by injection H as <- <-.
  - apply run_cons_inv in H as (s1 & o1 & o2 & Hst & Hrun & ->).
    rewrite (IH _ _ Hrun) by (intros nodes Hin; apply (Hev nodes); by right).
    destruct (step_loaded_origin _ _ _ _ Hst) as [-> | (nodes & -> & Hup)]; [done|].
    exfalso. apply (Hev nodes). by left.
Qed.

(** X14. A response that decodes and covers every requested key that was
    still missing completes the request: nothing is missing afterwards, the
    flag is down, and re-evaluating the same request issues nothing. *)
Theorem complete_response_ends_fetching s nodes s' req :
  step s (QueryResolved nodes) = Some (s', []) ->
  (forall k, k ∈ missing req (loaded s) -> exists n, n ∈ nodes /\ nodeId n = toGraphId k) ->
  missing req (loaded s') = [] /\
  fetching s' = false /\
  step s' (Reevaluate req) = Some (s', []).
Proof.
  intros Hst Hcover.
  assert (H : updater nodes (loaded s) = Ok (loaded s') /\ fetching s' = false).
  { simpl in Hst. destruct (outstanding s); [done|].
    destruct (updater nodes (loaded s)); [|done]. by injection Hst as <-. }
  destruct H as [Hup Hf].
  assert (Hm : missing req (loaded s') = []).
  { destruct (missing req (loaded s')) as [|k l] eqn:E; [done|].
    assert (Hk : k ∈ missing req (loaded s')) by (rewrite E; by left).
    apply missing_elem in Hk as [Hk Hn]. apply not_elem_of_dom in Hn.
    rewrite (updater_dom _ _ _ Hup) in Hn.
    destruct (loaded s !! toGraphId k) eqn:E0.
    - apply (elem_of_dom_2 (loaded s)) in E0. set_solver.
    - destruct (Hcover k) as (n & Hin & Hid); [by apply missing_elem|].
      exfalso. apply Hn, elem_of_union_r, elem_of_list_to_set.
      apply list_elem_of_In, in_map_iff. exists n. by rewrite <- list_elem_of_In. }
  split; [done|]. split; [done|]. apply Reevaluate_noop. by right.
Qed.

(** X15. A response that decodes but contains none of the requested
    entities leaves the missing list as it was, so the next re-evaluation of
    the same request sends the same call again; after an empty response the
    hook is back in the very state it was in while fetching. *)
Theorem unhelpful_response_repeats_the_call s req s1 m nodes s2 :
  step s (Reevaluate req) = Some (s1, [RemoteCall m]) ->
  step s1 (QueryResolved nodes) = Some (s2, []) ->
  (forall k n, k ∈ req -> n ∈ nodes -> nodeId n <> toGraphId k) ->
  missing req (loaded s2) = m /\
  (exists s3, step s2 (Reevaluate req) = Some (s3, [RemoteCall m])) /\
  (nodes = [] -> step s2 (Reevaluate req) = Some (s1, [RemoteCall m])).
Proof.
  intros Hst1 Hst2 Hnone.
  assert (H1 : m = missing req (loaded s) /\ m <> [] /\
               s1 = {| loaded := loaded s; fetching := true;
                       outstanding := S (outstanding s) |}).
  { destruct (step_call_origin _ _ _ _ _ Hst1 (list_elem_of_here _ _))
      as (Hne & keys & [= <-] & ->).
    split; [done|]. split; [done|]. simpl in Hst1.
    destruct (negb (fetching s) && _); [|done]. by injection Hst1 as <-. }
  destruct H1 as (-> & Hne & ->). simpl in Hst2.
  destruct (updater nodes (loaded s)) as [c'|] eqn:Hup; [|done].
  injection Hst2 as <-. simpl.
  assert (Hm : missing req c' = missing req (loaded s)).
  { apply missing_ext. intros k Hk. f_equal.
    eapply updater_lookup_other; [done|]. intros n Hn. by apply Hnone. }
  split; [done|]. rewrite Hm.
  destruct (missing req (loaded s)) eqn:E; [done|]. simpl.
  split; [by eexists|]. intros ->.
  unfold updater in Hup. simpl in Hup. injection Hup as <-.
  unfold merge, spread, fromEntries. simpl. by rewrite (left_id_L ∅ (∪)).
Qed.

End Hook.

(** ** The theorems at work on the sample records *)

Abbreviation decode :=
  (getColumnLineage Sample.isLineageEntry Sample.buildSchema Sample.parse).
Abbreviation hook_step :=
  (step Sample.graphId Sample.isLineageEntry Sample.buildSchema Sample.parse).
Abbreviation hook_run :=
  (run Sample.graphId Sample.isLineageEntry Sample.buildSchema Sample.parse).
Abbreviation hook_reachable :=
  (reachable Sample.graphId Sample.isLineageEntry Sample.buildSchema Sample.parse).
Abbreviation hook_updater :=
  (updater Sample.graphId Sample.isLineageEntry Sample.buildSchema Sample.parse).

Example decode_unwrapped_key :
  decode Sample.node_w =
    Ok {[ "b" := {| name := "b"; type := None; description := None;
                    asOf := Some "1700000001";
                    upstream := [{| assetKey := {| upstream_path := None |};
                                    columnName := "y" |}] |} ]}.
Proof. reflexivity. Qed.

Example decode_unparsable : decode Sample.node_bad = Throw SyntaxError.
Proof. reflexivity. Qed.

Example decode_never_materialized : decode Sample.node_u = Ok ∅.
Proof. reflexivity. Qed.

Lemma st_fetching_reachable : hook_reachable Sample.st_fetching.
Proof.
  exists [Reevaluate [Sample.key_t; Sample.key_u]],
         [RemoteCall [Sample.key_t; Sample.key_u]].
  reflexivity.
Defined.

Lemma initial_reachable : hook_reachable initial.
Proof. exists [], []. reflexivity. Defined.

Lemma decoded_columns_are_lineage_keys_witness :
  exists out,
    decode Sample.node_t = Ok out /\
    dom out = list_to_set Sample.payload_a.*1 /\
    (forall c, c ∈ Sample.payload_a.*1 -> is_Some (out !! c)) /\
    (forall c, c ∉ Sample.payload_a.*1 -> out !! c = None).
Proof.
  apply (decoded_columns_are_lineage_keys Sample.isLineageEntry Sample.buildSchema
           Sample.parse Sample.node_t (Sample.lineageEntry "payload_a") "payload_a"
           Sample.payload_a); reflexivity.
Defined.

Lemma decode_merges_schema_and_lineage_witness :
  decode Sample.node_t = Ok Sample.local_t.
Proof.
  destruct (decode_merges_schema_and_lineage Sample.isLineageEntry Sample.buildSchema
              Sample.parse Sample.node_t Sample.mat_t
              (Sample.lineageEntry "payload_a") "payload_a" Sample.payload_a
              eq_refl eq_refl eq_refl eq_refl)
    as (out & Hdec & _ & Hex).
  rewrite Hdec. f_equal.
  exact (Hex eq_refl Sample.column_a eq_refl eq_refl).
Defined.

Lemma unguarded_first_element_witness :
  exists out col lu0 lu1,
    decode Sample.node_mixed = Ok out /\
    out !! "b" = Some col /\
    length (upstream col) = 2 /\
    upstream col !! 0 = Some lu0 /\
    columnName lu0 = "y" /\ upstream_path (assetKey lu0) = None /\
    upstream col !! 1 = Some lu1 /\
    columnName lu1 = "x" /\ upstream_path (assetKey lu1) = Some ["t1"; "col_x"].
Proof.
  destruct (unguarded_first_element Sample.isLineageEntry Sample.buildSchema
              Sample.parse Sample.node_mixed (Sample.lineageEntry "payload_mixed")
              "payload_mixed" Sample.payload_mixed []
              "b" [Sample.ref_unwrapped; Sample.ref_wrapped] []
              eq_refl eq_refl eq_refl eq_refl (not_elem_of_nil _))
    as (out & col & Hdec & Hcol & Hlen & Hrefs & _).
  destruct (Hrefs 0 Sample.ref_unwrapped eq_refl) as (lu0 & H0 & Hn0 & _ & Hundef).
  destruct (Hrefs 1 Sample.ref_wrapped eq_refl) as (lu1 & H1 & Hn1 & Hfirst & _).
  exists out, col, lu0, lu1.
  split; [exact Hdec|]. split; [exact Hcol|]. split; [exact Hlen|].
  split; [exact H0|]. split; [exact Hn0|]. split; [exact (Hundef eq_refl)|].
  split; [exact H1|]. split; [exact Hn1|].
  exact (Hfirst ["t1"; "col_x"] [] eq_refl).
Defined.

Lemma merge_twice_is_merge_once_witness :
  hook_updater [Sample.node_t] ∅ = Ok Sample.cache_t /\
  hook_updater [Sample.node_t] Sample.cache_t = Ok Sample.cache_t.
Proof.
  assert (H : hook_updater [Sample.node_t] ∅ = Ok Sample.cache_t) by reflexivity.
  split; [exact H|].
  exact (proj2 (proj2 (merge_twice_is_merge_once Sample.graphId Sample.isLineageEntry
                         Sample.buildSchema Sample.parse [Sample.node_t] ∅ ∅))
           Sample.cache_t H).
Defined.

Lemma resolved_keys_stay_resolved_witness :
  let req := [Sample.key_t; Sample.key_u] in
  let s := {| loaded := Sample.cache_t; fetching := false; outstanding := 0 |} in
  let s' := {| loaded := <["u" := ∅]> Sample.cache_t; fetching := false;
               outstanding := 0 |} in
  let obs := [RemoteCall [Sample.key_u]] in
  let batches := [({[ "u" := ∅ ]} : AssetColumnLineages)] in
  hook_run s [Reevaluate req; QueryResolved [Sample.node_u]] = Some (s', obs) /\
  is_Some (loaded s !! Sample.graphId Sample.key_t) /\
  (Sample.key_t ∉ missing Sample.graphId req
                    (foldl merge (loaded s) batches)) /\
  (Sample.key_t ∉ missing Sample.graphId req (loaded s')) /\
  (forall m, RemoteCall m ∈ obs -> Sample.key_t ∉ m).
Proof.
  intros req s s' obs batches.
  assert (Hrun : hook_run s [Reevaluate req; QueryResolved [Sample.node_u]] = Some (s', obs))
    by reflexivity.
  assert (Hk : is_Some (loaded s !! Sample.graphId Sample.key_t))
    by (eexists; reflexivity).
  split; [exact Hrun|]. split; [exact Hk|].
  exact (proj2 (proj2 (proj2 (proj2
           (resolved_keys_stay_resolved Sample.graphId Sample.isLineageEntry
              Sample.buildSchema Sample.parse req s _ s' obs batches Hrun))))
           Sample.key_t Hk).
Defined.

Lemma empty_lineage_is_resolved_witness :
  let nodes := [Sample.node_t; Sample.node_u] in
  let c' : AssetColumnLineages := <["u" := ∅]> Sample.cache_t in
  let req := [Sample.key_u; Sample.key_t] in
  assetMaterializations Sample.node_u = [] /\
  Sample.node_u ∈ nodes /\
  hook_updater nodes ∅ = Ok c' /\
  decode Sample.node_u = Ok ∅ /\
  hook_updater [Sample.node_u] ∅ = Ok (<["u" := ∅]> ∅) /\
  is_Some (c' !! "u") /\
  (forall k, Sample.graphId k = "u" ->
     (k ∉ missing Sample.graphId req c') /\
     (k ∉ missing Sample.graphId req (foldl merge c' [Sample.cache_t]))).
Proof.
  intros nodes c' req.
  assert (Hin : Sample.node_u ∈ nodes) by apply list_elem_of_further, list_elem_of_here.
  assert (Hup : hook_updater nodes ∅ = Ok c') by reflexivity.
  split; [reflexivity|]. split; [exact Hin|]. split; [exact Hup|].
  exact (empty_lineage_is_resolved Sample.graphId Sample.isLineageEntry
           Sample.buildSchema Sample.parse Sample.node_u nodes ∅ c' req
           [Sample.cache_t] (or_introl eq_refl) Hin Hup).
Defined.

Lemma single_fetch_in_flight_witness :
  let keys := [Sample.key_t; Sample.key_u] in
  hook_reachable initial /\
  hook_reachable Sample.st_fetching /\
  outstanding Sample.st_fetching <= 1 /\
  hook_step Sample.st_fetching (Reevaluate keys) = Some (Sample.st_fetching, []) /\
  hook_run initial (Reevaluate keys :: map Reevaluate [[Sample.key_u]; keys]) =
    Some (Sample.st_fetching, [RemoteCall keys]).
Proof.
  intros keys.
  pose proof (single_fetch_in_flight Sample.graphId Sample.isLineageEntry
                Sample.buildSchema Sample.parse initial keys [[Sample.key_u]; keys]
                initial_reachable) as (_ & _ & Hone).
  pose proof (single_fetch_in_flight Sample.graphId Sample.isLineageEntry
                Sample.buildSchema Sample.parse Sample.st_fetching keys []
                st_fetching_reachable) as (Hle & Hnoop & _).
  split; [exact initial_reachable|]. split; [exact st_fetching_reachable|].
  split; [exact Hle|]. split.
  - apply Hnoop. right. apply Nat.lt_0_1.
  - apply Hone; [reflexivity|discriminate].
Defined.

Lemma unanswered_keys_are_requested_again_witness :
  let req := [Sample.key_t; Sample.key_u] in
  let s' := {| loaded := Sample.cache_t; fetching := false; outstanding := 0 |} in
  let s3 := {| loaded := Sample.cache_t; fetching := true; outstanding := 1 |} in
  hook_step Sample.st_fetching (QueryResolved [Sample.node_t]) = Some (s', []) /\
  dom (loaded s') = dom (loaded Sample.st_fetching) ∪ list_to_set ["t"] /\
  loaded s' !! "u" = None /\
  Sample.key_u ∈ missing Sample.graphId req (loaded s') /\
  hook_step s' (Reevaluate req) = Some (s3, [RemoteCall [Sample.key_u]]).
Proof.
  intros req s' s3.
  assert (Hst : hook_step Sample.st_fetching (QueryResolved [Sample.node_t]) = Some (s', []))
    by reflexivity.
  assert (Hst3 : hook_step s' (Reevaluate req) = Some (s3, [RemoteCall [Sample.key_u]]))
    by reflexivity.
  assert (Hanswer : forall n, n ∈ [Sample.node_t] ->
            Sample.graphId (node_assetKey n) <> Sample.graphId Sample.key_u).
  { intros n Hn. apply list_elem_of_singleton in Hn. rewrite Hn. discriminate. }
  assert (Hlater : forall nodes' n, QueryResolved nodes' ∈ ([] : list Event) -> n ∈ nodes' ->
            Sample.graphId (node_assetKey n) <> Sample.graphId Sample.key_u).
  { intros nodes' n Hev. by apply not_elem_of_nil in Hev. }
  destruct (unanswered_keys_are_requested_again Sample.graphId Sample.isLineageEntry
              Sample.buildSchema Sample.parse Sample.st_fetching [Sample.node_t] s'
              Sample.key_u req [] s' [] s3 [RemoteCall [Sample.key_u]]
              Hst (list_elem_of_further _ _ _ (list_elem_of_here _ _))
              (not_elem_of_empty _) Hanswer eq_refl Hlater Hst3)
    as (Hdom & Hnone & Hmiss & _).
  split; [exact Hst|]. split; [exact Hdom|]. split; [exact Hnone|].
  split; [exact Hmiss|exact Hst3].
Defined.

Lemma rejected_query_leaves_flag_set_witness :
  let keys := [Sample.key_t; Sample.key_u] in
  let evs := [Reevaluate keys; Reevaluate [Sample.key_u]] in
  hook_reachable Sample.st_fetching /\
  0 < outstanding Sample.st_fetching /\
  exists s',
    hook_step Sample.st_fetching QueryRejected = Some (s', [Uncaught TransportError]) /\
    loaded s' = loaded Sample.st_fetching /\ fetching s' = true /\ outstanding s' = 0 /\
    hook_step s' (Reevaluate keys) = Some (s', []) /\
    (hook_run s' evs = Some (Sample.st_wedged, []) ->
     Sample.st_wedged = s' /\ ([] : list Observation) = []).
Proof.
  intros keys evs.
  split; [exact st_fetching_reachable|]. split; [apply Nat.lt_0_1|].
  exact (rejected_query_leaves_flag_set Sample.graphId Sample.isLineageEntry
           Sample.buildSchema Sample.parse Sample.st_fetching keys evs
           Sample.st_wedged [] st_fetching_reachable Nat.lt_0_1).
Defined.

(** The same run, evaluated: the call for [key_t] and [key_u] rejects, and the
    re-evaluation that follows finds the flag up and fetches nothing. *)
Example rejection_wedges_the_hook :
  let keys := [Sample.key_t; Sample.key_u] in
  hook_run initial [Reevaluate keys; QueryRejected; Reevaluate keys] =
    Some (Sample.st_wedged, [RemoteCall keys; Uncaught TransportError]).
Proof. reflexivity. Qed.

(** ** The further properties at work on the sample records *)

Lemma decoded_type_never_empty_string_witness :
  let col := {| name := "a"; type := None; description := None;
                asOf := Some "1700000003";
                upstream := [{| assetKey := {| upstream_path := Some ["t1"; "col_x"] |};
                                columnName := "x" |}] |} in
  decode Sample.node_blank = Ok {[ "a" := col ]} /\
  ({[ "a" := col ]} : AssetColumnLineageLocal) !! "a" = Some col /\
  type col <> Some EmptyString /\ description col <> Some EmptyString.
Proof.
  intros col.
  assert (Hd : decode Sample.node_blank = Ok {[ "a" := col ]}) by reflexivity.
  assert (Hc : ({[ "a" := col ]} : AssetColumnLineageLocal) !! "a" = Some col)
    by reflexivity.
  split; [exact Hd|]. split; [exact Hc|].
  exact (decoded_type_never_empty_string Sample.isLineageEntry Sample.buildSchema
           Sample.parse Sample.node_blank _ "a" col Hd Hc).
Defined.

Lemma schemaParsed_last_column_wins_witness :
  let ts := {| schema := Some {| columns := [Sample.column_a] ++
                                            Sample.column_a2 :: [Sample.column_z] |} |} in
  schemaParsed (Some ts) !! "a" = Some Sample.column_a2 /\
  (forall c, (forall col', col' ∈ [Sample.column_a] ++ Sample.column_a2 :: [Sample.column_z] ->
                col_name col' <> c) ->
     schemaParsed (Some ts) !! c = None) /\
  schemaParsed None = ∅.
Proof.
  intros ts.
  apply (schemaParsed_last_column_wins ts [Sample.column_a] Sample.column_a2
           [Sample.column_z] eq_refl).
  intros col' Hin. apply list_elem_of_singleton in Hin. rewrite Hin. discriminate.
Defined.

Lemma first_lineage_entry_is_used_witness :
  lineageMetadata Sample.isLineageEntry Sample.node_two =
    Some (Sample.lineageEntry "payload_a") /\
  exists out, decode Sample.node_two = Ok out /\
              dom out = list_to_set Sample.payload_a.*1.
Proof.
  destruct (first_lineage_entry_is_used Sample.isLineageEntry Sample.buildSchema
              Sample.parse Sample.node_two
              {| timestamp := "1700000004";
                 mat_metadataEntries :=
                   [Sample.schemaEntry [Sample.column_z]; Sample.lineageEntry "payload_a";
                    Sample.lineageEntry "{"] |}
              [{| timestamp := "1600000000";
                  mat_metadataEntries := [Sample.lineageEntry "payload_unwrapped"] |}]
              [Sample.schemaEntry [Sample.column_z]]
              (Sample.lineageEntry "payload_a")
              [Sample.lineageEntry "{"] eq_refl eq_refl eq_refl)
    as (Hlm & Hok & _).
  { intros e He. apply list_elem_of_singleton in He. rewrite He. reflexivity. }
  split; [exact Hlm|].
  exact (Hok Sample.payload_a "payload_a" eq_refl eq_refl).
Defined.

Lemma updater_all_or_nothing_witness :
  hook_updater ([Sample.node_t] ++ Sample.node_bad :: [Sample.node_u]) Sample.cache_t =
    Throw SyntaxError /\
  ((exists c', hook_updater [Sample.node_t; Sample.node_u] Sample.cache_t = Ok c') <->
   forall n', n' ∈ [Sample.node_t; Sample.node_u] -> exists l, decode n' = Ok l).
Proof.
  apply (updater_all_or_nothing Sample.graphId Sample.isLineageEntry Sample.buildSchema
           Sample.parse [Sample.node_t; Sample.node_u] [Sample.node_t] Sample.node_bad
           [Sample.node_u] SyntaxError Sample.cache_t).
  - intros p Hp. apply list_elem_of_singleton in Hp. rewrite Hp.
    exists Sample.local_t. reflexivity.
  - reflexivity.
Defined.

Lemma updater_lookup_witness :
  let nodes := [Sample.node_u] ++ Sample.node_t :: [] in
  let c : AssetColumnLineages := {[ "t" := ∅ ]} in
  let c' : AssetColumnLineages := <["u" := ∅]> Sample.cache_t in
  hook_updater nodes c = Ok c' /\
  (exists l, decode Sample.node_t = Ok l /\ c' !! "t" = Some l) /\
  (forall g, (forall n', n' ∈ nodes -> nodeId Sample.graphId n' <> g) -> c' !! g = c !! g).
Proof.
  intros nodes c c'.
  assert (Hup : hook_updater nodes c = Ok c') by reflexivity.
  split; [exact Hup|].
  apply (updater_lookup Sample.graphId Sample.isLineageEntry Sample.buildSchema
           Sample.parse nodes [Sample.node_u] Sample.node_t [] c c' Hup eq_refl).
  intros n' Hn'. by apply not_elem_of_nil in Hn'.
Defined.

Lemma remote_calls_are_nonempty_witness :
  let keys := [Sample.key_t; Sample.key_u] in
  let evs := [Reevaluate keys; QueryResolved [Sample.node_t]; Reevaluate keys] in
  let s' := {| loaded := Sample.cache_t; fetching := true; outstanding := 1 |} in
  let obs := [RemoteCall keys; RemoteCall [Sample.key_u]] in
  hook_run initial evs = Some (s', obs) /\
  RemoteCall [Sample.key_u] ∈ obs /\
  [Sample.key_u] <> [] /\
  exists keys', Reevaluate keys' ∈ evs /\ sublist [Sample.key_u] keys'.
Proof.
  intros keys evs s' obs.
  assert (Hrun : hook_run initial evs = Some (s', obs)) by reflexivity.
  assert (Hin : RemoteCall [Sample.key_u] ∈ obs)
    by apply list_elem_of_further, list_elem_of_here.
  split; [exact Hrun|]. split; [exact Hin|].
  exact (remote_calls_are_nonempty Sample.graphId Sample.isLineageEntry
           Sample.buildSchema Sample.parse initial evs s' obs [Sample.key_u] Hrun Hin).
Defined.

Lemma calls_bounded_by_fulfilled_responses_witness :
  let keys := [Sample.key_t; Sample.key_u] in
  let evs := [Reevaluate keys; QueryResolved [Sample.node_t]; Reevaluate keys;
              QueryRejected; Reevaluate keys] in
  let s' := {| loaded := Sample.cache_t; fetching := true; outstanding := 0 |} in
  let obs := [RemoteCall keys; RemoteCall [Sample.key_u]; Uncaught TransportError] in
  hook_run initial evs = Some (s', obs) /\
  length (List.filter isRemoteCall obs) + (if fetching s' then 0 else 1) <=
    length (List.filter fulfils evs) + (if fetching initial then 0 else 1).
Proof.
  intros keys evs s' obs.
  assert (Hrun : hook_run initial evs = Some (s', obs)) by reflexivity.
  split; [exact Hrun|].
  exact (calls_bounded_by_fulfilled_responses Sample.graphId Sample.isLineageEntry
           Sample.buildSchema Sample.parse initial evs s' obs Hrun).
Defined.

Lemma cache_entries_come_from_responses_witness :
  let keys := [Sample.key_t; Sample.key_u] in
  let evs := [Reevaluate keys; QueryResolved [Sample.node_t]; Reevaluate keys;
              QueryResolved [Sample.node_bad]] in
  let s' := {| loaded := Sample.cache_t; fetching := false; outstanding := 0 |} in
  let obs := [RemoteCall keys; RemoteCall [Sample.key_u]; Uncaught SyntaxError] in
  hook_run initial evs = Some (s', obs) /\
  dom (loaded s') ⊆
    dom (loaded initial) ∪ list_to_set (map (nodeId Sample.graphId) (deliveredNodes evs)).
Proof.
  intros keys evs s' obs.
  assert (Hrun : hook_run initial evs = Some (s', obs)) by reflexivity.
  split; [exact Hrun|].
  exact (cache_entries_come_from_responses Sample.graphId Sample.isLineageEntry
           Sample.buildSchema Sample.parse initial evs s' obs Hrun).
Defined.

Lemma cache_changes_only_on_response_witness :
  let keys := [Sample.key_t; Sample.key_u] in
  let s := {| loaded := Sample.cache_t; fetching := false; outstanding := 0 |} in
  let evs := [Reevaluate keys; QueryRejected; Reevaluate keys] in
  let s' := {| loaded := Sample.cache_t; fetching := true; outstanding := 0 |} in
  let obs := [RemoteCall [Sample.key_u]; Uncaught TransportError] in
  hook_run s evs = Some (s', obs) /\
  (forall nodes, QueryResolved nodes ∉ evs) /\
  loaded s' = loaded s.
Proof.
  intros keys s evs s' obs.
  assert (Hrun : hook_run s evs = Some (s', obs)) by reflexivity.
  assert (Hev : forall nodes, QueryResolved nodes ∉ evs).
  { intros nodes Hin. repeat (apply elem_of_cons in Hin as [Hin|Hin]; [discriminate Hin|]).
    by apply not_elem_of_nil in Hin. }
  split; [exact Hrun|]. split; [exact Hev|].
  exact (cache_changes_only_on_response Sample.graphId Sample.isLineageEntry
           Sample.buildSchema Sample.parse s evs s' obs Hrun Hev).
Defined.

Lemma complete_response_ends_fetching_witness :
  let req := [Sample.key_t; Sample.key_u] in
  let nodes := [Sample.node_t; Sample.node_u] in
  let s' := {| loaded := <["u" := ∅]> Sample.cache_t; fetching := false;
               outstanding := 0 |} in
  hook_step Sample.st_fetching (QueryResolved nodes) = Some (s', []) /\
  missing Sample.graphId req (loaded s') = [] /\
  fetching s' = false /\
  hook_step s' (Reevaluate req) = Some (s', []).
Proof.
  intros req nodes s'.
  assert (Hst : hook_step Sample.st_fetching (QueryResolved nodes) = Some (s', []))
    by reflexivity.
  split; [exact Hst|].
  apply (complete_response_ends_fetching Sample.graphId Sample.isLineageEntry
           Sample.buildSchema Sample.parse Sample.st_fetching nodes s' req Hst).
  intros k Hk. change (k ∈ req) in Hk.
  apply elem_of_cons in Hk as [->|Hk].
  - exists Sample.node_t. split; [apply list_elem_of_here|reflexivity].
  - apply list_elem_of_singleton in Hk. rewrite Hk.
    exists Sample.node_u. split; [apply list_elem_of_further, list_elem_of_here|reflexivity].
Defined.

Lemma unhelpful_response_repeats_the_call_witness :
  let req := [Sample.key_t] in
  let s1 := {| loaded := ∅; fetching := true; outstanding := 1 |} in
  let s2 := {| loaded := {[ "u" := ∅ ]}; fetching := false; outstanding := 0 |} in
  hook_step initial (Reevaluate req) = Some (s1, [RemoteCall req]) /\
  hook_step s1 (QueryResolved [Sample.node_u]) = Some (s2, []) /\
  missing Sample.graphId req (loaded s2) = req /\
  (exists s3, hook_step s2 (Reevaluate req) = Some (s3, [RemoteCall req])) /\
  ([Sample.node_u] = [] -> hook_step s2 (Reevaluate req) = Some (s1, [RemoteCall req])).
Proof.
  intros req s1 s2.
  assert (H1 : hook_step initial (Reevaluate req) = Some (s1, [RemoteCall req]))
    by reflexivity.
  assert (H2 : hook_step s1 (QueryResolved [Sample.node_u]) = Some (s2, []))
    by reflexivity.
  split; [exact H1|]. split; [exact H2|].
  apply (unhelpful_response_repeats_the_call Sample.graphId Sample.isLineageEntry
           Sample.buildSchema Sample.parse initial req s1 req [Sample.node_u] s2 H1 H2).
  intros k n Hk Hn. apply list_elem_of_singleton in Hk. apply list_elem_of_singleton in Hn.
  rewrite Hk, Hn. discriminate.
Defined.
